(** * PANDA (netZooPy/panda/panda.py): a shallow embedding and its properties

    The program is dense double-precision linear algebra on NumPy arrays.
    Scalars are Rocq's primitive binary64 floats, so NaN, the infinities,
    signed zeros and rounding are those of IEEE-754; a 2-D array is the list
    of its rows.  In-place array updates are modelled by state passing.

    Reductions ([np.sum], [np.dot]) are summed left to right starting from 0.
    NumPy leaves the order of a floating-point reduction unspecified (it sums
    long contiguous runs pairwise), so the statements below are made not to
    depend on it: they are relative to the reductions, or rest on facts that
    hold in every order (a NaN operand gives NaN, a sum of numbers that are
    not negative is not negative, a sum of bounded numbers does not
    overflow). *)

From Stdlib Require Import ZArith Uint63 Floats.
From stdpp Require Import base list strings gmap sorting.

(** ** Arrays *)

Abbreviation fvec := (list float).
Abbreviation matrix := (list (list float)).
Abbreviation mask := (list (list bool)).

(** [x.shape[0]] and [x.shape[1]]. *)
Definition nrows {A} (x : list (list A)) : nat := length x.
Definition ncols {A} (x : list (list A)) : nat :=
  match x with [] => 0 | r :: _ => length r end.

(** [x[i, j]], when in range. *)
Definition entry {A} (x : list (list A)) (i j : nat) : option A :=
  x !! i ≫= (.!! j).

(** A proper [r] by [c] array. *)
Definition shaped {A} (r c : nat) (x : list (list A)) : Prop :=
  length x = r ∧ Forall (λ row, length row = c) x.

Definition symmetric (x : matrix) : Prop :=
  ∀ i j, entry x i j = entry x j i.

(** Conversion of a Python [int] (a count) to a double. *)
Definition of_nat (n : nat) : float :=
  PrimFloat.of_uint63 (Uint63.of_Z (Z.of_nat n)).

Module Np.

(** [x[:, j]] *)
Definition col {A} (j : nat) (x : list (list A)) : list A := omap (.!! j) x.

(** [x.T] *)
Definition transpose (x : matrix) : matrix :=
  (λ j, col j x) <$> seq 0 (ncols x).

(** Elementwise operations, with a scalar or between equal shapes. *)
Definition map1 (f : float → float) (x : matrix) : matrix :=
  fmap (M := list) f <$> x.
Definition map2 {A B C} (f : A → B → C)
    (x : list (list A)) (y : list (list B)) : list (list C) :=
  zip_with (zip_with f) x y.

(** Broadcasting of a 1-D array along the rows ([s]) and of a column
    ([s.reshape(-1, 1)]) along the columns. *)
Definition bcast_row (r : nat) (s : fvec) : matrix := replicate r s.
Definition bcast_col (c : nat) (s : fvec) : matrix := replicate c <$> s.

(** [np.sum] of a 1-D array. *)
Definition sum (v : fvec) : float := foldl PrimFloat.add 0%float v.

(** [np.mean] and [np.std] (population, [ddof=0]) of a 1-D array:
    NumPy's [_mean] and [_var]. *)
Definition mean (v : fvec) : float := (sum v / of_nat (length v))%float.
Definition var (v : fvec) : float :=
  let m := mean v in
  (sum ((λ a, let d := (a - m)%float in (d * d)%float) <$> v)
     / of_nat (length v))%float.
Definition std (v : fvec) : float := PrimFloat.sqrt (var v).

(** [x.flatten()] (row-major) and [x.flatten(order='F')] (column-major). *)
Definition flatten {A} (x : list (list A)) : list A := concat x.
Definition flatten_F {A} (x : list (list A)) : list A :=
  concat ((λ j, col j x) <$> seq 0 (ncols x)).

(** [np.dot(x, y)] for 2-D arrays, and [np.dot(x, x.T)], whose columns are
    the rows of [x]. *)
Definition dot1 (u v : fvec) : float := sum (zip_with PrimFloat.mul u v).
Definition dot (x y : matrix) : matrix :=
  (λ row, (λ j, dot1 row (col j y)) <$> seq 0 (ncols y)) <$> x.
Definition dot_T (x : matrix) : matrix :=
  (λ row, (λ row', dot1 row row') <$> x) <$> x.

(** [np.square(x).sum(axis=1)] and [np.square(y).sum(axis=0)]. *)
Definition sumsq (v : fvec) : float := sum ((λ a, (a * a)%float) <$> v).
Definition sumsq_rows (x : matrix) : fvec := sumsq <$> x.
Definition sumsq_cols (y : matrix) : fvec :=
  (λ j, sumsq (col j y)) <$> seq 0 (ncols y).

(** [np.isnan(x)] and [np.isnan(x).any()]. *)
Definition isnan (x : matrix) : mask := fmap (M := list) is_nan <$> x.
Definition any (m : mask) : bool := existsb (existsb id) m.

(** [x[m] = v[m]]: assignment through a boolean mask. *)
Definition assign_where (m : mask) (v x : matrix) : matrix :=
  zip_with (λ mrow vx, zip_with (λ (b : bool) (p : float * float),
                                   if b then p.1 else p.2) mrow (zip vx.1 vx.2))
           m (zip v x).

(** [np.fill_diagonal(x, v)] with a scalar, and with a 1-D array (whose
    values are repeated if it is shorter than the diagonal). *)
Definition fill_diagonal (x : matrix) (v : float) : matrix :=
  imap (λ i row, <[i := v]> row) x.
Definition fill_diagonal_with (x : matrix) (vs : fvec) : matrix :=
  imap (λ i row, match vs !! (i `mod` length vs) with
                 | Some v => <[i := v]> row
                 | None => row
                 end) x.

(** [np.nan_to_num]: NaN becomes 0, the infinities the largest finite
    doubles. *)
Definition max_float : float := 0x1.fffffffffffffp+1023%float.
Definition nan_to_num1 (a : float) : float :=
  if is_nan a then 0%float
  else if (a =? infinity)%float then max_float
  else if (a =? neg_infinity)%float then (- max_float)%float
  else a.
Definition nan_to_num (x : matrix) : matrix := map1 nan_to_num1 x.

(** [np.nanstd] of a 1-D array (NumPy's [_nanvar]): NaNs are replaced by
    0 and left out of the counts. *)
Definition nanvar (v : fvec) : float :=
  let arr := (λ a, if is_nan a then 0%float else a) <$> v in
  let cnt := length (filter (λ a, is_nan a = false) v) in
  let avg := (sum arr / of_nat cnt)%float in
  let dev := zip_with (λ a0 a, if is_nan a0 then 0%float else (a - avg)%float)
                      v arr in
  let sqr := (λ d, (d * d)%float) <$> dev in
  if decide (cnt = 0) then nan else (sum sqr / of_nat cnt)%float.
Definition nanstd (v : fvec) : float := PrimFloat.sqrt (nanvar v).

(** [np.identity(n)] and [np.zeros((r, c))]. *)
Definition identity (n : nat) : matrix :=
  (λ i, (λ j, if decide (i = j) then 1%float else 0%float) <$> seq 0 n)
    <$> seq 0 n.
Definition zeros (r c : nat) : matrix := replicate r (replicate c 0%float).

(** [np.tile(a, (n, 1)).flatten()] and [np.repeat(a, n)] on a 1-D array. *)
Definition tile_flat {A} (a : list A) (n : nat) : list A :=
  concat (replicate n a).
Definition repeat {A} (a : list A) (n : nat) : list A :=
  a ≫= replicate n.

(** [x.ravel()[i * x.shape[1] + j] = w], one assignment per triple and in
    order, as the fancy-index assignment does. *)
Definition set_entry (x : matrix) (i j : nat) (w : float) : matrix :=
  alter (<[j := w]>) i x.
Definition assign_flat (x : matrix) (upd : list (nat * nat * float)) : matrix :=
  foldl (λ m u, set_entry m u.1.1 u.1.2 u.2) x upd.

(** [np.tile(a, (n, 1))] and the transpose of an array of any type. *)
Definition tile {A} (a : list A) (n : nat) : list (list A) := replicate n a.
Definition T {A} (x : list (list A)) : list (list A) :=
  (λ j, col j x) <$> seq 0 (ncols x).

(** [sorted(set(l))] and [np.unique(l)] on strings: the distinct elements in
    increasing order.  Python compares strings by code point, which is the
    order of their UTF-8 bytes. *)
Definition str_le (a b : string) : Prop := String.leb a b = true.
#[global] Instance str_le_dec : RelDecision str_le :=
  λ a b, decide (String.leb a b = true).
Definition unique (l : list string) : list string :=
  merge_sort str_le (remove_dups l).

End Np.

(** [scipy.stats.zscore(x, axis, ddof=0)]: [(x - mean) / std] along the axis. *)
Module Scipy.

Definition zscore1 (v : fvec) : fvec :=
  let m := Np.mean v in
  let s := Np.std v in
  (λ a, ((a - m) / s)%float) <$> v.

Definition zscore (x : matrix) (axis : nat) : matrix :=
  match axis with
  | 0 =>
      let cols := Np.transpose x in
      let mns := Np.mean <$> cols in
      let sstd := Np.std <$> cols in
      (λ row, zip_with PrimFloat.div (zip_with PrimFloat.sub row mns) sstd) <$> x
  | _ => zscore1 <$> x
  end.

End Scipy.

(** ** The [Panda] class *)

Module Panda.

(** One row of [export_panda_results]. *)
Record edge := Edge { tf : string; gene : string; motif : float; force : float }.

(** [pd.DataFrame] from four columns: it raises unless they have one
    length. *)
Definition DataFrame (tfs genes : list string) (motifs forces : fvec)
    : option (list edge) :=
  if decide (length genes = length tfs ∧ length motifs = length tfs
             ∧ length forces = length tfs)
  then Some (zip_with (λ tg mf, Edge tg.1 tg.2 mf.1 mf.2)
                      (zip tfs genes) (zip motifs forces))
  else None.

(** The attributes of a [Panda] object that the algorithm reads and
    writes.  [unique_tfs], [gene_names] and [motif_matrix_unnormalized]
    are deleted together when [save_memory] is set. *)
Record kept := Kept {
  unique_tfs : list string;
  gene_names : list string;
  motif_matrix_unnormalized : matrix
}.

Record self := Self {
  self_kept : option kept;
  num_tfs : nat;
  self_correlation_matrix : matrix;
  self_motif_matrix : matrix;
  self_ppi_matrix : matrix;
  export_panda_results : option (list edge);
  panda_network : matrix
}.

(** The local variables of [panda_loop]; the three arrays are the
    caller's, updated in place. *)
Record locals := Locals {
  correlation_matrix : matrix;
  motif_matrix : matrix;
  ppi_matrix : matrix;
  step : nat;
  hamming : float
}.

Definition alpha : float := 0x1.999999999999ap-4%float.       (* 0.1 *)
Definition threshold : float := 0x1.0624dd2f1a9fcp-10%float.  (* 0.001 *)

(** *** Network construction *)

(** [{x: i for i, x in enumerate(names)}] and [d.get(x, 0)]. *)
Definition name2idx (names : list string) : gmap string nat :=
  foldl (λ d p, <[p.2 := p.1]> d) ∅ (imap (λ i x, (i, x)) names).
Definition get0 (d : gmap string nat) (x : string) : nat := default 0 (d !! x).

(** A three-column table read from a file: [data[0]], [data[1]], [data[2]]. *)
Definition table := list (string * string * float).

Definition triples (d1 d2 : gmap string nat) (data : table)
    : list (nat * nat * float) :=
  (λ r, (get0 d1 r.1.1, get0 d2 r.1.2, r.2)) <$> data.
Definition mirrored (upd : list (nat * nat * float)) : list (nat * nat * float) :=
  (λ u, (u.1.2, u.1.1, u.2)) <$> upd.

(** The cell an update writes. *)
Definition cell_of (u : nat * nat * float) : nat * nat := (u.1.1, u.1.2).

(** A list of updates in which the rows that write one unordered pair of
    cells all carry one weight. *)
Definition consistent (upd : list (nat * nat * float)) : Prop :=
  ∀ u v, u ∈ upd → v ∈ upd →
    cell_of u = cell_of v ∨ cell_of u = (v.1.2, v.1.1) → u.2 = v.2.

(** Lines 98-103: the motif prior as a dense array. *)
Definition create_motif (tfs genes : list string) (motif_data : table) : matrix :=
  Np.assign_flat (Np.zeros (length tfs) (length genes))
                 (triples (name2idx tfs) (name2idx genes) motif_data).

(** Lines 105-115: the PPI array; each row of the table is written at its
    position and then at the mirrored one. *)
Definition create_ppi (tfs : list string) (ppi_data : option table) : matrix :=
  match ppi_data with
  | None => Np.identity (length tfs)
  | Some data =>
      let upd := triples (name2idx tfs) (name2idx tfs) data in
      Np.assign_flat (Np.assign_flat (Np.identity (length tfs)) upd) (mirrored upd)
  end.

(** Lines 78-80: NaNs of the coexpression array computed by
    [np.corrcoef]. *)
Definition clean_correlation (correlation_matrix : matrix) : matrix :=
  if Np.any (Np.isnan correlation_matrix)
  then Np.nan_to_num (Np.fill_diagonal correlation_matrix 1%float)
  else correlation_matrix.

(** *** Normalization *)

Definition sqrt2 : float := PrimFloat.sqrt 2%float.

Definition norm_col (x : matrix) : matrix := Scipy.zscore x 0.
Definition norm_row (x : matrix) : matrix :=
  if decide (nrows x = ncols x) then Np.transpose (norm_col x)
  else Scipy.zscore x 1.
Definition norm_total (x : matrix) : matrix :=
  let m := Np.mean (Np.flatten x) in
  let s := Np.std (Np.flatten x) in
  Np.map1 (λ a, ((a - m) / s)%float) x.

Definition _normalize_network (x : matrix) : matrix :=
  let norm_col := norm_col x in
  let norm_row := norm_row x in
  let normalized_matrix :=
    Np.map1 (λ a, (a / sqrt2)%float) (Np.map2 PrimFloat.add norm_col norm_row) in
  let norm_total := norm_total x in
  let nan_col := Np.isnan norm_col in
  let nan_row := Np.isnan norm_row in
  let normalized_matrix :=
    Np.assign_where nan_col
      (Np.map1 (λ a, (a / sqrt2)%float) (Np.map2 PrimFloat.add norm_row norm_total))
      normalized_matrix in
  let normalized_matrix :=
    Np.assign_where nan_row
      (Np.map1 (λ a, (a / sqrt2)%float) (Np.map2 PrimFloat.add norm_col norm_total))
      normalized_matrix in
  Np.assign_where (Np.map2 andb nan_col nan_row)
    (Np.map1 (λ a, (2 * a / sqrt2)%float) norm_col)
    normalized_matrix.

(** The value [_normalize_network] leaves in a cell, from the three
    standardized values of that cell: the three masked assignments in the
    order of the source. *)
Definition cell (cz rz tz : float) : float :=
  let v := ((cz + rz) / sqrt2)%float in
  let v := if is_nan cz then ((rz + tz) / sqrt2)%float else v in
  let v := if is_nan rz then ((cz + tz) / sqrt2)%float else v in
  if is_nan cz && is_nan rz then (2 * cz / sqrt2)%float else v.

(** *** The algorithm *)

Definition t_function (x : matrix) (y : option matrix) : matrix :=
  match y with
  | None =>
      let a_matrix := Np.dot_T x in
      let s := Np.sumsq_rows x in
      let n := length s in
      Np.map2 PrimFloat.div a_matrix
        (Np.map1 PrimFloat.sqrt
           (Np.map2 PrimFloat.sub
              (Np.map2 PrimFloat.add (Np.bcast_row n s) (Np.bcast_col n s))
              (Np.map1 abs a_matrix)))
  | Some y =>
      let a_matrix := Np.dot x y in
      let sy := Np.sumsq_cols y in
      let sx := Np.sumsq_rows x in
      Np.map2 PrimFloat.div a_matrix
        (Np.map1 PrimFloat.sqrt
           (Np.map2 PrimFloat.sub
              (Np.map2 PrimFloat.add (Np.bcast_row (length sx) sy)
                                     (Np.bcast_col (length sy) sx))
              (Np.map1 abs a_matrix)))
  end.

(** The shapes of the three arrays for [T] regulators and [G] targets. *)
Definition well_shaped (T G : nat) (s : locals) : Prop :=
  shaped T T (ppi_matrix s) ∧ shaped T G (motif_matrix s) ∧
  shaped G G (correlation_matrix s).

Section WithExp.

(** [math.exp], the exponential of the C library. *)
Variable exp : float → float.

Definition update_diagonal (diagonal_matrix : matrix) (num : nat)
    (alpha : float) (step : nat) : matrix :=
  let diagonal_matrix := Np.fill_diagonal diagonal_matrix nan in
  let diagonal_std := Np.nanstd <$> diagonal_matrix in
  let diagonal_fill :=
    (λ d, (d * of_nat num * exp (2 * alpha * of_nat step))%float)
      <$> diagonal_std in
  Np.fill_diagonal_with diagonal_matrix diagonal_fill.

(** [W = 0.5 * (t_function(ppi, motif) + t_function(motif, correlation))] *)
Definition W_of (s : locals) : matrix :=
  Np.map1 (λ a, (0.5 * a)%float)
    (Np.map2 PrimFloat.add
       (t_function (ppi_matrix s) (Some (motif_matrix s)))
       (t_function (motif_matrix s) (Some (correlation_matrix s)))).

(** [x *= (1 - alpha); x += alpha * w] *)
Definition damped (x w : matrix) : matrix :=
  Np.map2 PrimFloat.add
    (Np.map1 (λ a, (a * (1 - alpha))%float) x)
    (Np.map1 (λ a, (alpha * a)%float) w).

(** The body of the [while] loop. *)
Definition iteration (num_tfs num_genes : nat) (s : locals) : locals :=
  let W := W_of s in
  let hamming :=
    Np.mean (Np.flatten (Np.map1 abs (Np.map2 PrimFloat.sub (motif_matrix s) W))) in
  let motif_matrix := damped (motif_matrix s) W in
  if (threshold <? hamming)%float then
    let ppi := t_function motif_matrix None in
    let ppi := update_diagonal ppi num_tfs alpha (step s) in
    let ppi_matrix := damped (ppi_matrix s) ppi in
    let motif := t_function (Np.transpose motif_matrix) None in
    let motif := update_diagonal motif num_genes alpha (step s) in
    let correlation_matrix := damped (correlation_matrix s) motif in
    Locals correlation_matrix motif_matrix ppi_matrix (S (step s)) hamming
  else
    Locals (correlation_matrix s) motif_matrix (ppi_matrix s) (S (step s)) hamming.

(** [while hamming > 0.001: ...]; [None] when the fuel runs out first. *)
Fixpoint while_loop (fuel : nat) (num_tfs num_genes : nat) (s : locals)
    : option locals :=
  if (threshold <? hamming s)%float then
    match fuel with
    | 0 => None
    | S fuel => while_loop fuel num_tfs num_genes (iteration num_tfs num_genes s)
    end
  else Some s.

Definition initial (correlation_matrix motif_matrix ppi_matrix : matrix)
    : locals :=
  Locals correlation_matrix motif_matrix ppi_matrix 0 1%float.

(** Lines 252-257: the edge list, built when [unique_tfs] is still an
    attribute.  [self.motif_matrix] is the array the loop updated. *)
Definition export (k : kept) (num_tfs : nat) (motif_matrix : matrix)
    : option (list edge) :=
  let tfs := Np.tile_flat (unique_tfs k) (length (gene_names k)) in
  let genes := Np.repeat (gene_names k) num_tfs in
  let motif := Np.flatten_F (motif_matrix_unnormalized k) in
  let force := Np.flatten_F motif_matrix in
  DataFrame tfs genes motif force.

(** [panda_loop] as a method: the arrays passed in are the object's own,
    so the object sees the final arrays.  The outer [None] is an
    unfinished loop. *)
Definition panda_loop (fuel : nat) (o : self) : option (self * matrix) :=
  let num_tfs' := nrows (self_motif_matrix o) in
  let num_genes := ncols (self_motif_matrix o) in
  s ← while_loop fuel num_tfs' num_genes
        (initial (self_correlation_matrix o) (self_motif_matrix o)
                 (self_ppi_matrix o));
  let o' := Self (self_kept o) (num_tfs o) (correlation_matrix s)
                 (motif_matrix s) (ppi_matrix s)
                 (match self_kept o with
                  | Some k => export k (num_tfs o) (motif_matrix s)
                  | None => export_panda_results o
                  end)
                 (panda_network o) in
  Some (o', motif_matrix s).

(** [__init__] when a motif prior is given (lines 98-151):
    [correlation] is the coexpression array that [np.corrcoef] (or
    [np.identity]) returned, the tables are the parsed files. *)
Definition __init__ (fuel : nat) (correlation : matrix)
    (unique_tfs gene_names : list string) (motif_data : table)
    (ppi_data : option table) (save_memory : bool) : option self :=
  let correlation_matrix := clean_correlation correlation in
  let motif_matrix_unnormalized := create_motif unique_tfs gene_names motif_data in
  let ppi_matrix := create_ppi unique_tfs ppi_data in
  let correlation_matrix := _normalize_network correlation_matrix in
  let motif_matrix := _normalize_network motif_matrix_unnormalized in
  let ppi_matrix := _normalize_network ppi_matrix in
  let o := Self (if save_memory then None
                 else Some (Kept unique_tfs gene_names motif_matrix_unnormalized))
                (length unique_tfs) correlation_matrix motif_matrix ppi_matrix
                None [] in
  r ← panda_loop fuel o;
  Some (Self (self_kept r.1) (num_tfs r.1) (self_correlation_matrix r.1)
             (self_motif_matrix r.1) (self_ppi_matrix r.1)
             (export_panda_results r.1) r.2).

End WithExp.

(** An executable exponential for running the model on examples: the power
    series at [x / 1024], squared ten times. *)
Definition exp_series (x : float) : float :=
  let y := (x / 1024)%float in
  let e := (fix go (n : nat) (k term acc : float) : float :=
              match n with
              | O => acc
              | S n => let term := (term * y / k)%float in
                       go n (k + 1)%float term (acc + term)%float
              end) 20 1%float 1%float 1%float in
  Nat.iter 10 (λ a, (a * a)%float) e.

(** *** The other methods *)

(** [pd.DataFrame] from the three columns of the correlation-only edge
    list. *)
Definition DataFrame3 (tfs genes : list string) (forces : fvec) : option table :=
  if decide (length genes = length tfs ∧ length forces = length tfs)
  then Some (zip_with (λ tg f, (tg.1, tg.2, f)) (zip tfs genes) forces)
  else None.

(** Lines 261-268: the edge list when no motif prior is given. *)
Definition __pearson_results_data_frame (gene_names : list string)
    (panda_network : matrix) : option table :=
  let genes_1 := Np.flatten (Np.tile gene_names (length gene_names)) in
  let genes_2 := Np.flatten (Np.T (Np.tile gene_names (length gene_names))) in
  let flat_panda_network := Np.flatten (Np.transpose panda_network) in
  DataFrame3 genes_1 genes_2 flat_panda_network.

(** The loaded data that [__remove_missing] filters: the expression table
    (its index and its rows), the gene names, the motif table, the
    regulators and the PPI table. *)
Record loaded := Loaded {
  expression_data : option (list (string * fvec));
  loaded_gene_names : list string;
  motif_data : table;
  loaded_unique_tfs : list string;
  ppi_data : option table
}.

(** [s.isin(values)] on one value. *)
Definition isin (x : string) (values : list string) : bool :=
  bool_decide (x ∈ values).

(** Lines 157-181. *)
Definition __remove_missing (o : loaded) : loaded :=
  let '(expression_data, gene_names) :=
    match expression_data o with
    | Some ed =>
        let motif_unique_genes := (λ r, r.1.2) <$> motif_data o in
        let ed := filter (λ r, isin r.1 motif_unique_genes = true) ed in
        (Some ed, fst <$> ed)
    | None => (None, loaded_gene_names o)
    end in
  let motif_data :=
    filter (λ r, isin r.1.2 gene_names = true) (motif_data o) in
  let unique_tfs := Np.unique ((λ r, r.1.1) <$> motif_data) in
  let ppi_data :=
    match ppi_data o with
    | Some pd =>
        let motif_unique_tfs := Np.unique ((λ r, r.1.1) <$> motif_data) in
        let pd := filter (λ r, isin r.1.1 motif_unique_tfs = true) pd in
        Some (filter (λ r, isin r.1.2 motif_unique_tfs = true) pd)
    | None => None
    end in
  Loaded expression_data gene_names motif_data unique_tfs ppi_data.

(** Small inputs on which the statements below are run. *)
Definition ex_locals : locals :=
  Locals [[2; 1]; [1; 2]]%float [[1; 0]; [1; 1]]%float
         [[2; -1]; [-1; 2]]%float 0 1%float.
Definition ex_nan_self : self :=
  Self (Some (Kept ["A"; "B"] ["g1"; "g2"] [[1; 1]; [1; 0]]%float)) 2
       [[1; -1]; [-1; 1]]%float [[nan; 1]; [1; -1]]%float
       [[1; -1]; [-1; 1]]%float None [].
Definition ex_nan_run : self * matrix :=
  default (ex_nan_self, []) (panda_loop exp_series 1 ex_nan_self).

Definition ex_init : option self :=
  __init__ exp_series 1 (Np.identity 2) ["A"; "B"] ["g1"; "g2"]
    [("A", "g1", 1%float); ("A", "g2", 1%float); ("B", "g1", 1%float)]
    None false.
Definition ex_init_self : self := default ex_nan_self ex_init.

(** A run without expression data (the coexpression array is the
    identity), with a PPI table: three regulators, four targets. *)
Definition ex_motif_data : table :=
  [("A", "g1", 1%float); ("B", "g2", 1%float); ("C", "g3", 1%float);
   ("A", "g4", 1%float); ("B", "g4", 1%float)].
Definition ex_ppi_data : table :=
  [("A", "B", 0.5%float); ("B", "C", 0.25%float)].
Definition ex_run : option self :=
  __init__ exp_series 60 (Np.identity 4) ["A"; "B"; "C"]
    ["g1"; "g2"; "g3"; "g4"] ex_motif_data (Some ex_ppi_data) false.
Definition ex_run_self : self := default ex_nan_self ex_run.

(** The same run from a coexpression array that is not symmetric in the
    last bit of one entry, as the arrays that [np.corrcoef] returns may
    be. *)
Definition ex_corr : matrix :=
  [[1; 0.5; 0.25; 0.125]; [0x1.0000000000001p-1; 1; 0.375; 0.5];
   [0.25; 0.375; 1; 0.625]; [0.125; 0.5; 0.625; 1]]%float.
Definition ex_run_corr : option self :=
  __init__ exp_series 60 ex_corr ["A"; "B"; "C"]
    ["g1"; "g2"; "g3"; "g4"] ex_motif_data (Some ex_ppi_data) false.
Definition ex_run_corr_self : self := default ex_nan_self ex_run_corr.

End Panda.

Module SF.

(** Classes of doubles, read on their IEEE 754 view ([Prim2SF]):
    [signed s x] holds of the infinity, the zero and the finite numbers of
    sign bit [s]. *)
Definition signed (s : bool) (x : spec_float) : Prop :=
  match x with
  | S754_nan => False
  | S754_zero s' | S754_infinity s' | S754_finite s' _ _ => s' = s
  end.
Definition not_nan (x : spec_float) : Prop := x ≠ S754_nan.
Definition finite (x : spec_float) : Prop :=
  match x with S754_zero _ | S754_finite _ _ _ => True | _ => False end.
Definition finite_pos (x : spec_float) : Prop :=
  match x with S754_finite false _ _ => True | _ => False end.

End SF.

(** * Properties *)

(** ** IEEE-754 facts, from the specification of the primitive floats *)

Module IEEE.

Lemma Prim2SF_nan : Prim2SF nan = S754_nan.
Proof. reflexivity. Qed.

Lemma SFcompare_refl (x : spec_float) :
  x ≠ S754_nan → SFcompare x x = Some Eq.
Proof.
  destruct x as [[]|[]| |[] m e]; simpl; try done.
  - intros _. rewrite Z.compare_refl, Pos.compare_cont_refl. done.
  - intros _. rewrite Z.compare_refl, Pos.compare_cont_refl. done.
Qed.

Lemma is_nan_Prim2SF (x : float) : is_nan x = true ↔ Prim2SF x = S754_nan.
Proof.
  unfold is_nan. rewrite FloatAxioms.eqb_spec. unfold SFeqb. split.
  - destruct (Prim2SF x) eqn:E; try done.
    all: rewrite SFcompare_refl; done.
  - intros ->. done.
Qed.

Lemma is_nan_true (x : float) : is_nan x = true ↔ x = nan.
Proof.
  rewrite is_nan_Prim2SF. split.
  - intros H. apply Prim2SF_inj. by rewrite H.
  - by intros ->.
Qed.

Lemma SFadd_comm (x y : spec_float) : SF64add x y = SF64add y x.
Proof.
  unfold SF64add.
  destruct x as [[]|[]| |sx mx ex], y as [[]|[]| |sy my ey]; simpl; try done.
  rewrite (Z.min_comm ey ex). f_equal. apply Z.add_comm.
Qed.

Lemma add_comm (x y : float) : (x + y = y + x)%float.
Proof. apply Prim2SF_inj. rewrite !add_spec. apply SFadd_comm. Qed.

Lemma SFmul_comm (x y : spec_float) : SF64mul x y = SF64mul y x.
Proof.
  unfold SF64mul.
  destruct x as [[]|[]| |sx mx ex], y as [[]|[]| |sy my ey]; simpl; try done.
  all: try (by destruct sy). all: try (by destruct sx).
  rewrite (xorb_comm sy sx), (Pos.mul_comm my mx), (Z.add_comm ey ex). done.
Qed.

Lemma mul_comm (x y : float) : (x * y = y * x)%float.
Proof. apply Prim2SF_inj. rewrite !mul_spec. apply SFmul_comm. Qed.

Lemma SFcompare_antisym (x y : spec_float) :
  SFcompare y x = CompOpp <$> SFcompare x y.
Proof.
  destruct x as [[]|[]| |[] mx ex], y as [[]|[]| |[] my ey]; simpl; try done.
  - rewrite (Z.compare_antisym ex ey). destruct (ex ?= ey)%Z eqn:E; simpl; try done.
    rewrite (Pos.compare_cont_antisym). by rewrite CompOpp_involutive.
  - rewrite (Z.compare_antisym ex ey). destruct (ex ?= ey)%Z eqn:E; simpl; try done.
    by rewrite (Pos.compare_cont_antisym).
Qed.

Lemma ltb_false_iff (x y : float) :
  (x <? y)%float = false ↔
  (y <=? x)%float = true ∨ is_nan x = true ∨ is_nan y = true.
Proof.
  rewrite ltb_spec, leb_spec, !is_nan_Prim2SF. unfold SFltb, SFleb.
  rewrite (SFcompare_antisym (Prim2SF x) (Prim2SF y)).
  destruct (Prim2SF x) as [[]|[]| |[] mx ex] eqn:Ex,
           (Prim2SF y) as [[]|[]| |[] my ey] eqn:Ey; simpl;
    try (destruct (_ ?= _)%Z; simpl); try (destruct (Pos.compare_cont _ _ _); simpl);
    intuition congruence.
Qed.
Lemma float_neq (a b : float) : PrimFloat.Leibniz.eqb a b = false → a ≠ b.
Proof.
  intros H E. apply FloatAxioms.Leibniz.eqb_spec in E. congruence.
Qed.

Lemma Some_float_neq (a b : float) :
  PrimFloat.Leibniz.eqb a b = false → Some a ≠ Some b.
Proof. intros H [= E]. by apply (float_neq a b). Qed.

Lemma eqb_infinity (a : float) (s : bool) :
  (a =? (if s then neg_infinity else infinity))%float = true →
  a = if s then neg_infinity else infinity.
Proof.
  rewrite FloatAxioms.eqb_spec. intros H. apply Prim2SF_inj.
  replace (Prim2SF (if s then neg_infinity else infinity))
    with (S754_infinity s) in * by (by destruct s).
  unfold SFeqb in H.
  destruct (Prim2SF a) as [[]|[]| |[] m e], s; simpl in H; done.
Qed.

Lemma eqb_infinity_false (a : float) :
  a ≠ infinity → (a =? infinity)%float = false.
Proof.
  intros Hne. apply not_true_is_false. intros H. by apply (eqb_infinity a false) in H.
Qed.

Lemma eqb_neg_infinity_false (a : float) :
  a ≠ neg_infinity → (a =? neg_infinity)%float = false.
Proof.
  intros Hne. apply not_true_is_false. intros H. by apply (eqb_infinity a true) in H.
Qed.

Lemma add_nan_l (y : float) : (nan + y = nan)%float.
Proof. apply Prim2SF_inj. rewrite add_spec. by destruct (Prim2SF y) as [[]|[]| |]. Qed.
Lemma add_nan_r (x : float) : (x + nan = nan)%float.
Proof. by rewrite IEEE.add_comm, add_nan_l. Qed.
Lemma sub_nan_l (y : float) : (nan - y = nan)%float.
Proof. apply Prim2SF_inj. rewrite sub_spec. by destruct (Prim2SF y) as [[]|[]| |]. Qed.
Lemma div_nan_l (y : float) : (nan / y = nan)%float.
Proof. apply Prim2SF_inj. rewrite div_spec. by destruct (Prim2SF y) as [[]|[]| |]. Qed.
Lemma abs_nan : abs nan = nan.
Proof. reflexivity. Qed.
Lemma mul_nan_r (x : float) : (x * nan = nan)%float.
Proof. apply Prim2SF_inj. rewrite mul_spec. by destruct (Prim2SF x) as [[]|[]| |]. Qed.
Lemma ltb_nan_r (x : float) : (x <? nan)%float = false.
Proof. rewrite ltb_spec. by destruct (Prim2SF x) as [[]|[]| |[]]. Qed.

End IEEE.

(** ** Entries of arrays *)

Section entries.
Context {A B C : Type}.
Implicit Types (x : list (list A)) (y : list (list B)).

Lemma entry_fmap (f : A → B) x i j :
  entry (fmap (M := list) f <$> x) i j = f <$> entry x i j.
Proof.
  unfold entry. rewrite list_lookup_fmap.
  destruct (x !! i) as [row|]; simpl; [|done]. by rewrite list_lookup_fmap.
Qed.

Lemma entry_map2 (f : A → B → C) x y i j :
  entry (Np.map2 f x y) i j = a ← entry x i j; b ← entry y i j; Some (f a b).
Proof.
  unfold entry, Np.map2. rewrite lookup_zip_with.
  destruct (x !! i) as [r|]; simpl; [|done].
  destruct (y !! i) as [r'|]; simpl.
  - by rewrite lookup_zip_with.
  - by destruct (r !! j).
Qed.

Lemma entry_Some x i j a :
  entry x i j = Some a ↔ ∃ row, x !! i = Some row ∧ row !! j = Some a.
Proof.
  unfold entry. destruct (x !! i) as [row|]; simpl.
  - split; [by exists row|]. by intros (row' & [= ->] & ?).
  - split; [done|]. by intros (? & ? & ?).
Qed.

Lemma col_lookup x (c : nat) i j :
  Forall (λ row, length row = c) x → j < c →
  Np.col j x !! i = entry x i j.
Proof.
  intros Hx Hj. revert i. induction Hx as [|row x Hrow _ IH]; intros i.
  - done.
  - unfold Np.col, entry in *. simpl.
    destruct (lookup_lt_is_Some_2 row j) as [a Ha]; [lia|].
    rewrite Ha. simpl. destruct i as [|i]; simpl; [done|]. apply IH.
Qed.

Lemma col_length x (c : nat) j :
  Forall (λ row, length row = c) x → j < c → length (Np.col j x) = length x.
Proof.
  intros Hx Hj. induction Hx as [|row x Hrow _ IH]; [done|].
  unfold Np.col in *. simpl.
  destruct (lookup_lt_is_Some_2 row j) as [a Ha]; [lia|].
  rewrite Ha. simpl. f_equal. exact IH.
Qed.

End entries.

Lemma shaped_ncols {A} r c (x : list (list A)) : shaped r c x → 0 < r → ncols x = c.
Proof.
  intros [Hr Hx] ?. destruct Hx; simpl in *; [lia|done].
Qed.

Lemma shaped_lookup {A} r c (x : list (list A)) i row :
  shaped r c x → x !! i = Some row → i < r ∧ length row = c.
Proof.
  intros [Hr Hx] Hi. split.
  - rewrite <- Hr. by eapply lookup_lt_Some.
  - by eapply (Forall_lookup_1 _ _ _ _ Hx).
Qed.

Lemma entry_transpose r c (x : matrix) i j :
  shaped r c x → 0 < r → entry (Np.transpose x) j i = entry x i j.
Proof.
  intros Hs Hr. unfold Np.transpose. rewrite (shaped_ncols _ _ _ Hs Hr).
  destruct Hs as [Hl Hx].
  unfold entry at 1. rewrite list_lookup_fmap.
  destruct (decide (j < c)) as [Hj|Hj].
  - rewrite lookup_seq_lt by done. simpl. apply (col_lookup _ c); [exact Hx|exact Hj].
  - rewrite lookup_seq_ge by lia. simpl. symmetry.
    unfold entry. destruct (x !! i) as [row|] eqn:E; simpl; [|done].
    apply lookup_ge_None. rewrite (Forall_lookup_1 _ _ _ _ Hx E). lia.
Qed.

Lemma shaped_transpose r c (x : matrix) :
  shaped r c x → 0 < r → shaped c r (Np.transpose x).
Proof.
  intros Hs Hr. unfold Np.transpose. rewrite (shaped_ncols _ _ _ Hs Hr).
  destruct Hs as [Hl Hx]. split.
  - by rewrite length_fmap, length_seq.
  - apply Forall_fmap, Forall_forall. intros j Hj%elem_of_seq. simpl.
    rewrite (col_length _ c) by (done || lia). done.
Qed.

Lemma entry_dot_T (x : matrix) i j :
  entry (Np.dot_T x) i j = ri ← x !! i; rj ← x !! j; Some (Np.dot1 ri rj).
Proof.
  unfold entry, Np.dot_T. rewrite list_lookup_fmap.
  destruct (x !! i) as [ri|]; simpl; [|done].
  rewrite list_lookup_fmap. by destruct (x !! j).
Qed.

Lemma entry_dot (x y : matrix) i j :
  entry (Np.dot x y) i j =
  ri ← x !! i; if decide (j < ncols y) then Some (Np.dot1 ri (Np.col j y)) else None.
Proof.
  unfold entry, Np.dot. rewrite list_lookup_fmap.
  destruct (x !! i) as [ri|]; simpl; [|done].
  rewrite list_lookup_fmap. case_decide.
  - by rewrite lookup_seq_lt.
  - by rewrite lookup_seq_ge by lia.
Qed.

Lemma entry_bcast_row r (s : fvec) i j :
  entry (Np.bcast_row r s) i j = if decide (i < r) then s !! j else None.
Proof.
  unfold entry, Np.bcast_row. case_decide.
  - by rewrite lookup_replicate_2.
  - by rewrite (proj1 (lookup_replicate_None _ _ _)) by lia.
Qed.

Lemma entry_bcast_col c (s : fvec) i j :
  entry (Np.bcast_col c s) i j =
  a ← s !! i; if decide (j < c) then Some a else None.
Proof.
  unfold entry, Np.bcast_col. rewrite list_lookup_fmap.
  destruct (s !! i) as [a|]; simpl; [|done]. case_decide.
  - by rewrite lookup_replicate_2.
  - by rewrite (proj1 (lookup_replicate_None _ _ _)) by lia.
Qed.

Lemma shaped_entry_shape {A} r c (x : list (list A)) :
  shaped r c x ↔ length x = r ∧ ∀ i row, x !! i = Some row → length row = c.
Proof. unfold shaped. by rewrite Forall_lookup. Qed.

(** An array whose defined entries are exactly those of an [r] by [c] grid. *)
Lemma shaped_of_entries {A} r c (x : list (list A)) :
  length x = r → (∀ i row, x !! i = Some row → length row = c) → shaped r c x.
Proof. intros. by apply shaped_entry_shape. Qed.

Lemma shaped_map1 r c f (x : matrix) : shaped r c x → shaped r c (Np.map1 f x).
Proof.
  intros [Hl Hx]. split; unfold Np.map1.
  - by rewrite length_fmap.
  - apply Forall_fmap. eapply Forall_impl; [done|]. intros row <-. simpl.
    by rewrite length_fmap.
Qed.

Lemma shaped_map2 {A B C} r c (f : A → B → C)
    (x : list (list A)) (y : list (list B)) :
  shaped r c x → shaped r c y → shaped r c (Np.map2 f x y).
Proof.
  intros [Hlx Hx] [Hly Hy]. apply shaped_entry_shape. unfold Np.map2. split.
  - rewrite length_zip_with. lia.
  - intros i row. rewrite lookup_zip_with.
    destruct (x !! i) as [rx|] eqn:Ex; simpl; [|done].
    destruct (y !! i) as [ry|] eqn:Ey; simpl; [|done].
    intros [= <-]. rewrite length_zip_with.
    rewrite (Forall_lookup_1 _ _ _ _ Hx Ex), (Forall_lookup_1 _ _ _ _ Hy Ey). lia.
Qed.

Lemma map1_ext (f g : float → float) (x : matrix) :
  (∀ a, f a = g a) → Np.map1 f x = Np.map1 g x.
Proof.
  intros Hfg. unfold Np.map1. apply list_fmap_ext. intros _ row _.
  apply list_fmap_ext. intros _ a _. apply Hfg.
Qed.

Import Panda.

Lemma shaped_dot_T m k (x : matrix) : shaped m k x → shaped m m (Np.dot_T x).
Proof.
  intros [Hl _]. apply shaped_of_entries; unfold Np.dot_T.
  - by rewrite length_fmap.
  - intros i row. rewrite list_lookup_fmap.
    destruct (x !! i); simpl; [|done]. intros [= <-]. by rewrite length_fmap.
Qed.

Lemma shaped_dot m k n (x y : matrix) :
  shaped m k x → shaped k n y → 0 < k → shaped m n (Np.dot x y).
Proof.
  intros [Hl _] Hy Hk. apply shaped_of_entries; unfold Np.dot.
  - by rewrite length_fmap.
  - intros i row. rewrite list_lookup_fmap.
    destruct (x !! i); simpl; [|done]. intros [= <-].
    by rewrite length_fmap, length_seq, (shaped_ncols _ _ _ Hy Hk).
Qed.

Lemma shaped_bcast_row r c (s : fvec) : length s = c → shaped r c (Np.bcast_row r s).
Proof.
  intros Hs. split; unfold Np.bcast_row.
  - by rewrite length_replicate.
  - by apply Forall_replicate.
Qed.

Lemma shaped_bcast_col r c (s : fvec) : length s = r → shaped r c (Np.bcast_col c s).
Proof.
  intros Hs. split; unfold Np.bcast_col.
  - by rewrite length_fmap.
  - apply Forall_fmap, Forall_forall. intros a _. simpl. by rewrite length_replicate.
Qed.

Lemma shaped_t_function_1 m k (x : matrix) :
  shaped m k x → shaped m m (t_function x None).
Proof.
  intros Hx. pose proof (shaped_dot_T _ _ _ Hx) as Ha.
  assert (length (Np.sumsq_rows x) = m) as Hs.
  { unfold Np.sumsq_rows. rewrite length_fmap. apply Hx. }
  unfold t_function. rewrite Hs.
  repeat (apply shaped_map2 || apply shaped_map1); try done.
  - by apply shaped_bcast_row.
  - by apply shaped_bcast_col.
Qed.

Lemma shaped_t_function_2 m k n (x y : matrix) :
  shaped m k x → shaped k n y → 0 < k → shaped m n (t_function x (Some y)).
Proof.
  intros Hx Hy Hk. pose proof (shaped_dot _ _ _ _ _ Hx Hy Hk) as Ha.
  assert (length (Np.sumsq_rows x) = m) as Hs.
  { unfold Np.sumsq_rows. rewrite length_fmap. apply Hx. }
  assert (length (Np.sumsq_cols y) = n) as Hs'.
  { unfold Np.sumsq_cols. by rewrite length_fmap, length_seq, (shaped_ncols _ _ _ Hy Hk). }
  unfold t_function. rewrite Hs, Hs'.
  repeat (apply shaped_map2 || apply shaped_map1); try done.
  - by apply shaped_bcast_row.
  - by apply shaped_bcast_col.
Qed.

Lemma t_function_1_entry (x : matrix) i j ri rj :
  x !! i = Some ri → x !! j = Some rj →
  entry (t_function x None) i j =
  Some (let a := Np.dot1 ri rj in
        a / PrimFloat.sqrt (Np.sumsq rj + Np.sumsq ri - abs a))%float.
Proof.
  intros Hi Hj. unfold t_function, Np.map1.
  pose proof (lookup_lt_Some _ _ _ Hi). pose proof (lookup_lt_Some _ _ _ Hj).
  rewrite !entry_map2, !entry_fmap, !entry_map2, entry_fmap, entry_dot_T,
    entry_bcast_row, entry_bcast_col.
  unfold Np.sumsq_rows. rewrite length_fmap, !list_lookup_fmap, Hi, Hj. simpl.
  rewrite !decide_True by done. done.
Qed.

Lemma t_function_2_entry k n (x y : matrix) i j ri :
  shaped k n y → 0 < k → x !! i = Some ri → j < n →
  entry (t_function x (Some y)) i j =
  Some (let a := Np.dot1 ri (Np.col j y) in
        a / PrimFloat.sqrt (Np.sumsq (Np.col j y) + Np.sumsq ri - abs a))%float.
Proof.
  intros Hy Hk Hi Hj. unfold t_function, Np.map1.
  pose proof (lookup_lt_Some _ _ _ Hi).
  rewrite !entry_map2, !entry_fmap, !entry_map2, entry_fmap, entry_dot,
    entry_bcast_row, entry_bcast_col.
  unfold Np.sumsq_rows, Np.sumsq_cols.
  rewrite !length_fmap, length_seq, !list_lookup_fmap, Hi, (shaped_ncols _ _ _ Hy Hk).
  rewrite lookup_seq_lt by done. simpl.
  rewrite !decide_True by done. done.
Qed.

(** ** The similarity transform *)

(** C3: for [x] of shape m by k, [t_function x] is the m by m array whose entry
    (i, j) is the dot product of rows i and j of [x] divided by the square
    root of [s[i] + s[j] - |dot product|], [s] the row sums of squares; for
    [y] of shape k by n, [t_function x y] is the m by n array whose entry
    (i, j) is the raw entry of [x.y] divided by the square root of
    [colSumSquares(y)[j] + rowSumSquares(x)[i] - |raw entry|]. *)
Theorem t_function_spec (m k n : nat) (x y : matrix) (i j j' : nat) (ri rj : fvec) :
  shaped m k x → shaped k n y → 0 < k →
  x !! i = Some ri → x !! j = Some rj → j' < n →
  shaped m m (t_function x None) ∧
  entry (t_function x None) i j =
    Some (let a := Np.dot1 ri rj in
          a / PrimFloat.sqrt (Np.sumsq ri + Np.sumsq rj - abs a))%float ∧
  shaped m n (t_function x (Some y)) ∧
  entry (t_function x (Some y)) i j' =
    Some (let a := Np.dot1 ri (Np.col j' y) in
          a / PrimFloat.sqrt (Np.sumsq (Np.col j' y) + Np.sumsq ri - abs a))%float.
Proof.
  intros Hx Hy Hk Hi Hj Hj'. split_and!.
  - by eapply shaped_t_function_1.
  - rewrite (t_function_1_entry _ _ _ _ _ Hi Hj). simpl.
    by rewrite (IEEE.add_comm (Np.sumsq rj)).
  - by eapply shaped_t_function_2.
  - by eapply t_function_2_entry.
Qed.

Lemma t_function_spec_witness :
  let x : matrix := [[1; 0; 0]; [1; 1; 0]]%float in
  let y : matrix := [[1; 0]; [0; 1]; [1; 1]]%float in
  shaped 2 2 (t_function x None) ∧
  entry (t_function x None) 0 1 =
    Some (let a := Np.dot1 [1; 0; 0] [1; 1; 0] in
          a / PrimFloat.sqrt (Np.sumsq [1; 0; 0] + Np.sumsq [1; 1; 0] - abs a))%float ∧
  shaped 2 2 (t_function x (Some y)) ∧
  entry (t_function x (Some y)) 0 1 =
    Some (let a := Np.dot1 [1; 0; 0] (Np.col 1 y) in
          a / PrimFloat.sqrt (Np.sumsq (Np.col 1 y) + Np.sumsq [1; 0; 0] - abs a))%float.
Proof.
  intros x y. apply (t_function_spec 2 3 2 x y 0 1 1).
  - split; [reflexivity|]. repeat constructor.
  - split; [reflexivity|]. repeat constructor.
  - lia.
  - reflexivity.
  - reflexivity.
  - lia.
Defined.

(** ** Normalization *)

Lemma entry_assign_where (m : mask) (v x : matrix) i j :
  entry (Np.assign_where m v x) i j =
  b ← entry m i j; a ← entry v i j; o ← entry x i j;
  Some (if b : bool then a else o).
Proof.
  unfold entry, Np.assign_where. rewrite lookup_zip_with, lookup_zip_with.
  destruct (m !! i) as [mr|]; simpl; [|done].
  destruct (v !! i) as [vr|]; simpl; [|by destruct (mr !! j)].
  destruct (x !! i) as [xr|]; simpl.
  - rewrite lookup_zip_with, lookup_zip_with.
    destruct (mr !! j); simpl; [|done].
    destruct (vr !! j); simpl; [|done]. by destruct (xr !! j).
  - destruct (mr !! j); simpl; [|done]. by destruct (vr !! j).
Qed.

Lemma entry_isnan (x : matrix) i j :
  entry (Np.isnan x) i j = is_nan <$> entry x i j.
Proof. apply entry_fmap. Qed.

Lemma entry_lt {A} r c (x : list (list A)) i j :
  shaped r c x → i < r → j < c → is_Some (entry x i j).
Proof.
  intros [Hl Hx] Hi Hj. unfold entry.
  destruct (lookup_lt_is_Some_2 x i) as [row Hrow]; [lia|].
  rewrite Hrow. simpl. apply lookup_lt_is_Some_2.
  rewrite (Forall_lookup_1 _ _ _ _ Hx Hrow). lia.
Qed.

Lemma entry_shaped_Some {A} r c (x : list (list A)) i j a :
  shaped r c x → entry x i j = Some a → i < r ∧ j < c.
Proof.
  intros Hs (row & Hrow & Ha)%entry_Some.
  destruct (shaped_lookup _ _ _ _ _ Hs Hrow) as [? <-].
  split; [done|]. by eapply lookup_lt_Some.
Qed.

(** Two arrays of one shape with the same entries are equal. *)
Lemma matrix_ext r c (x y : matrix) :
  shaped r c x → shaped r c y → (∀ i j, entry x i j = entry y i j) → x = y.
Proof.
  intros Hx Hy H. apply list_eq. intros i.
  destruct (x !! i) as [rx|] eqn:Ex, (y !! i) as [ry|] eqn:Ey.
  - f_equal. apply list_eq. intros j. specialize (H i j).
    unfold entry in H. by rewrite Ex, Ey in H.
  - apply lookup_lt_Some in Ex. apply lookup_ge_None in Ey.
    destruct Hx, Hy. lia.
  - apply lookup_lt_Some in Ey. apply lookup_ge_None in Ex.
    destruct Hx, Hy. lia.
  - done.
Qed.

(** *** The three standardizations *)

Lemma norm_col_entry r c (x : matrix) i j :
  shaped r c x →
  entry (norm_col x) i j =
  a ← entry x i j;
  Some ((a - Np.mean (Np.col j x)) / Np.std (Np.col j x))%float.
Proof.
  intros Hs. unfold norm_col, Scipy.zscore, entry. rewrite list_lookup_fmap.
  destruct (x !! i) as [row|] eqn:Hrow; simpl; [|done].
  destruct (shaped_lookup _ _ _ _ _ Hs Hrow) as [Hi Hlen].
  rewrite !lookup_zip_with. destruct (row !! j) as [a|] eqn:Ha; simpl; [|done].
  assert (j < c) by (rewrite <- Hlen; by eapply lookup_lt_Some).
  unfold Np.transpose. rewrite (shaped_ncols _ _ _ Hs) by lia.
  rewrite !list_lookup_fmap, lookup_seq_lt by done. done.
Qed.

Lemma shaped_norm_col r c (x : matrix) :
  shaped r c x → 0 < r → shaped r c (norm_col x).
Proof.
  intros Hs Hr. apply shaped_of_entries; unfold norm_col, Scipy.zscore.
  - rewrite length_fmap. apply Hs.
  - intros i row'. rewrite list_lookup_fmap.
    destruct (x !! i) as [row|] eqn:Hrow; simpl; [|done]. intros [= <-].
    destruct (shaped_lookup _ _ _ _ _ Hs Hrow) as [Hi Hlen].
    unfold Np.transpose. rewrite (shaped_ncols _ _ _ Hs) by lia.
    rewrite !length_zip_with, !length_fmap, length_seq. lia.
Qed.

Lemma norm_row_square r (x : matrix) :
  shaped r r x → 0 < r → norm_row x = Np.transpose (norm_col x).
Proof.
  intros Hs Hr. unfold norm_row, nrows.
  rewrite (shaped_ncols _ _ _ Hs Hr), (proj1 Hs). by rewrite decide_True.
Qed.

Lemma norm_row_not_square r c (x : matrix) :
  shaped r c x → 0 < r → r ≠ c → norm_row x = Scipy.zscore x 1.
Proof.
  intros Hs Hr Hne. unfold norm_row, nrows.
  rewrite (shaped_ncols _ _ _ Hs Hr), (proj1 Hs). by rewrite decide_False.
Qed.

Lemma zscore_rows_entry (x : matrix) i j row :
  x !! i = Some row →
  entry (Scipy.zscore x 1) i j =
  a ← row !! j; Some ((a - Np.mean row) / Np.std row)%float.
Proof.
  intros Hrow. unfold entry. simpl. rewrite list_lookup_fmap, Hrow. simpl.
  unfold Scipy.zscore1. rewrite list_lookup_fmap. by destruct (row !! j).
Qed.

Lemma shaped_zscore_rows r c (x : matrix) :
  shaped r c x → shaped r c (Scipy.zscore x 1).
Proof.
  intros [Hl Hx]. split; simpl.
  - by rewrite length_fmap.
  - apply Forall_fmap. eapply Forall_impl; [done|]. intros row <-. simpl.
    unfold Scipy.zscore1. by rewrite length_fmap.
Qed.

Lemma shaped_norm_row r c (x : matrix) :
  shaped r c x → 0 < r → shaped r c (norm_row x).
Proof.
  intros Hs Hr. destruct (decide (r = c)) as [<-|Hne].
  - rewrite (norm_row_square _ _ Hs Hr).
    apply shaped_transpose; [|done]. by apply shaped_norm_col.
  - rewrite (norm_row_not_square _ _ _ Hs Hr Hne). by apply shaped_zscore_rows.
Qed.

Lemma norm_row_entry_square r (x : matrix) i j :
  shaped r r x → 0 < r →
  entry (norm_row x) i j = entry (norm_col x) j i.
Proof.
  intros Hs Hr. rewrite (norm_row_square _ _ Hs Hr).
  apply (entry_transpose r r); [|done]. by apply shaped_norm_col.
Qed.

Lemma norm_total_entry (x : matrix) i j :
  entry (norm_total x) i j =
  a ← entry x i j;
  Some ((a - Np.mean (Np.flatten x)) / Np.std (Np.flatten x))%float.
Proof.
  unfold norm_total, Np.map1. rewrite entry_fmap. by destruct (entry x i j).
Qed.

Lemma shaped_norm_total r c (x : matrix) :
  shaped r c x → shaped r c (norm_total x).
Proof. apply shaped_map1. Qed.

Lemma normalize_entry (x : matrix) i j :
  entry (_normalize_network x) i j =
  cz ← entry (norm_col x) i j; rz ← entry (norm_row x) i j;
  tz ← entry (norm_total x) i j; Some (cell cz rz tz).
Proof.
  unfold _normalize_network, Np.map1.
  rewrite !entry_assign_where, !entry_map2, !entry_isnan, !entry_fmap, !entry_map2.
  destruct (entry (norm_col x) i j) as [cz|]; simpl; [|done].
  destruct (entry (norm_row x) i j) as [rz|]; simpl; [|done].
  destruct (entry (norm_total x) i j) as [tz|]; simpl; [|done].
  unfold cell. by destruct (is_nan cz), (is_nan rz).
Qed.

Lemma shaped_assign_where r c (m : mask) (v x : matrix) :
  shaped r c m → shaped r c v → shaped r c x →
  shaped r c (Np.assign_where m v x).
Proof.
  intros [Hlm Hm] [Hlv Hv] [Hlx Hx]. apply shaped_of_entries; unfold Np.assign_where.
  - rewrite length_zip_with, length_zip. lia.
  - intros i row. rewrite lookup_zip_with, lookup_zip_with.
    destruct (m !! i) as [mr|] eqn:Em; simpl; [|done].
    destruct (v !! i) as [vr|] eqn:Ev; simpl; [|done].
    destruct (x !! i) as [xr|] eqn:Ex; simpl; [|done]. intros [= <-].
    rewrite length_zip_with, length_zip.
    rewrite (Forall_lookup_1 _ _ _ _ Hm Em), (Forall_lookup_1 _ _ _ _ Hv Ev),
      (Forall_lookup_1 _ _ _ _ Hx Ex). lia.
Qed.

Lemma shaped_isnan r c (x : matrix) :
  shaped r c x → shaped r c (Np.isnan x).
Proof.
  intros [Hl Hx]. unfold Np.isnan. split.
  - by rewrite length_fmap.
  - apply Forall_fmap. eapply Forall_impl; [done|]. intros row <-. simpl.
    by rewrite length_fmap.
Qed.

Lemma shaped_normalize r c (x : matrix) :
  shaped r c x → 0 < r → shaped r c (_normalize_network x).
Proof.
  intros Hs Hr.
  pose proof (shaped_norm_col _ _ _ Hs Hr) as Hc.
  pose proof (shaped_norm_row _ _ _ Hs Hr) as Hw.
  pose proof (shaped_norm_total _ _ _ Hs) as Ht.
  unfold _normalize_network.
  repeat (apply shaped_assign_where || apply shaped_map1 || apply shaped_map2
          || apply shaped_isnan); done.
Qed.

Lemma any_isnan_false (x : matrix) :
  Np.any (Np.isnan x) = false ↔
  ∀ i j a, entry x i j = Some a → is_nan a = false.
Proof.
  unfold Np.any, Np.isnan. split.
  - intros H i j a (row & Hrow & Ha)%entry_Some.
    destruct (is_nan a) eqn:E; [|done]. rewrite <- H. symmetry.
    apply existsb_exists. exists (is_nan <$> row). split.
    + apply list_elem_of_In, list_elem_of_fmap. exists row. split; [done|].
      by eapply list_elem_of_lookup_2.
    + apply existsb_exists. exists true. split; [|done].
      apply list_elem_of_In, list_elem_of_fmap. exists a. split; [done|].
      by eapply list_elem_of_lookup_2.
  - intros H. apply not_true_is_false. intros (mrow & Hin & Hex)%existsb_exists.
    apply list_elem_of_In, list_elem_of_fmap in Hin as (row & -> & Hrow).
    apply existsb_exists in Hex as (b & Hb & Hid).
    apply list_elem_of_In, list_elem_of_fmap in Hb as (a & -> & Ha).
    apply list_elem_of_lookup in Hrow as (i & Hi), Ha as (j & Hj).
    assert (entry x i j = Some a) as He by (apply entry_Some; eauto).
    apply H in He. simpl in Hid. congruence.
Qed.

Lemma cell_no_nan cz rz tz :
  is_nan cz = false → is_nan rz = false →
  cell cz rz tz = ((cz + rz) / sqrt2)%float.
Proof. unfold cell. by intros -> ->. Qed.

Lemma col_symmetric r (x : matrix) i row :
  shaped r r x → symmetric x → x !! i = Some row → Np.col i x = row.
Proof.
  intros Hs Hx Hrow. destruct (shaped_lookup _ _ _ _ _ Hs Hrow) as [Hi Hlen].
  apply list_eq. intros k.
  rewrite (col_lookup _ r) by (done || apply Hs).
  rewrite (Hx k i). unfold entry. by rewrite Hrow.
Qed.

(** C4, as the code has it: on an array whose column and row
    standardizations contain no NaN (in exact arithmetic: no zero-variance
    column and no zero-variance row), [_normalize_network] returns
    [(colZ + rowZ) / sqrt(2)]; [colZ] is the z-score of each column with the
    population standard deviation; [rowZ] is the transpose of [colZ] when the
    array is square, which is the z-score of each row when the array is also
    symmetric, and [rowZ] is the z-score of each row when the array is not
    square. *)
Theorem normalize_without_nan (r c : nat) (x : matrix) :
  shaped r c x → 0 < r →
  Np.any (Np.isnan (norm_col x)) = false →
  Np.any (Np.isnan (norm_row x)) = false →
  _normalize_network x =
    Np.map1 (λ a, (a / PrimFloat.sqrt 2)%float)
            (Np.map2 PrimFloat.add (norm_col x) (norm_row x)) ∧
  (∀ i j a, entry x i j = Some a →
     entry (norm_col x) i j =
     Some ((a - Np.mean (Np.col j x)) / Np.std (Np.col j x))%float) ∧
  (r = c → norm_row x = Np.transpose (norm_col x)) ∧
  (r ≠ c ∨ symmetric x → ∀ i j row a, x !! i = Some row → row !! j = Some a →
     entry (norm_row x) i j = Some ((a - Np.mean row) / Np.std row)%float).
Proof.
  intros Hs Hr Hc Hw.
  pose proof (shaped_norm_col _ _ _ Hs Hr) as Hsc.
  pose proof (shaped_norm_row _ _ _ Hs Hr) as Hsw.
  split_and!.
  - apply (matrix_ext r c).
    + by apply shaped_normalize.
    + by apply shaped_map1, shaped_map2.
    + intros i j. rewrite normalize_entry. unfold Np.map1.
      rewrite entry_fmap, entry_map2.
      destruct (entry (norm_col x) i j) as [cz|] eqn:Ec; simpl; [|done].
      destruct (entry (norm_row x) i j) as [rz|] eqn:Ew; simpl; [|done].
      destruct (entry_shaped_Some _ _ _ _ _ _ Hsc Ec) as [Hi Hj].
      destruct (entry_lt _ _ _ _ _ (shaped_norm_total _ _ _ Hs) Hi Hj) as [tz ->].
      simpl. f_equal. apply cell_no_nan.
      * by eapply (proj1 (any_isnan_false _) Hc).
      * by eapply (proj1 (any_isnan_false _) Hw).
  - intros i j a Ha. by rewrite (norm_col_entry _ _ _ _ _ Hs), Ha.
  - intros <-. by apply (norm_row_square r).
  - intros Hcase i j row a Hrow Ha.
    destruct (decide (r = c)) as [<-|Hne].
    + destruct Hcase as [|Hx]; [done|].
      rewrite (norm_row_entry_square r), (norm_col_entry _ _ _ _ _ Hs) by done.
      rewrite (Hx j i), (col_symmetric r _ _ _ Hs Hx Hrow).
      unfold entry. rewrite Hrow. simpl. by rewrite Ha.
    + rewrite (norm_row_not_square _ _ _ Hs Hr Hne),
        (zscore_rows_entry _ _ _ _ Hrow).
      by rewrite Ha.
Qed.

Lemma normalize_without_nan_witness :
  let x : matrix := [[1; 2; 4]; [3; 1; 0]]%float in
  let y : matrix := [[1; 2; 4]; [3; 1; 0]; [0; 5; 2]]%float in
  (_normalize_network x =
     Np.map1 (λ a, (a / PrimFloat.sqrt 2)%float)
             (Np.map2 PrimFloat.add (norm_col x) (norm_row x)) ∧
   (∀ i j a, entry x i j = Some a →
      entry (norm_col x) i j =
      Some ((a - Np.mean (Np.col j x)) / Np.std (Np.col j x))%float) ∧
   (2 = 3 → norm_row x = Np.transpose (norm_col x)) ∧
   (2 ≠ 3 ∨ symmetric x → ∀ i j row a, x !! i = Some row → row !! j = Some a →
      entry (norm_row x) i j = Some ((a - Np.mean row) / Np.std row)%float)) ∧
  (_normalize_network y =
     Np.map1 (λ a, (a / PrimFloat.sqrt 2)%float)
             (Np.map2 PrimFloat.add (norm_col y) (norm_row y)) ∧
   (∀ i j a, entry y i j = Some a →
      entry (norm_col y) i j =
      Some ((a - Np.mean (Np.col j y)) / Np.std (Np.col j y))%float) ∧
   (3 = 3 → norm_row y = Np.transpose (norm_col y)) ∧
   (3 ≠ 3 ∨ symmetric y → ∀ i j row a, y !! i = Some row → row !! j = Some a →
      entry (norm_row y) i j = Some ((a - Np.mean row) / Np.std row)%float)).
Proof.
  intros x y. split.
  - apply (normalize_without_nan 2 3 x).
    + split; [reflexivity|]. repeat constructor.
    + lia.
    + vm_compute. reflexivity.
    + vm_compute. reflexivity.
  - apply (normalize_without_nan 3 3 y).
    + split; [reflexivity|]. repeat constructor.
    + lia.
    + vm_compute. reflexivity.
    + vm_compute. reflexivity.
Defined.

(** The claim C4 takes [rowZ] to be the z-score of each row for every
    input.  On a square array that is not symmetric, without a constant row
    or column, the result is not [(zscore(x, axis=0) + zscore(x, axis=1)) /
    sqrt(2)]: the code uses the transpose of [colZ]. *)
Lemma normalize_square_is_not_row_zscore :
  ¬ (∀ (r c : nat) (x : matrix),
       shaped r c x → 0 < r →
       (∀ row, row ∈ x → (0 <? Np.std row)%float = true) →
       (∀ j, j < c → (0 <? Np.std (Np.col j x))%float = true) →
       Np.any (Np.isnan (Scipy.zscore x 0)) = false →
       Np.any (Np.isnan (Scipy.zscore x 1)) = false →
       _normalize_network x =
         Np.map1 (λ a, (a / PrimFloat.sqrt 2)%float)
           (Np.map2 PrimFloat.add (Scipy.zscore x 0) (Scipy.zscore x 1))).
Proof.
  intros H. set (x := [[1; 2; 4]; [3; 1; 0]; [0; 5; 2]]%float : matrix).
  assert (_normalize_network x =
          Np.map1 (λ a, (a / PrimFloat.sqrt 2)%float)
            (Np.map2 PrimFloat.add (Scipy.zscore x 0) (Scipy.zscore x 1))) as E.
  { apply (H 3 3).
    - split; [reflexivity|]. repeat constructor.
    - lia.
    - intros row Hin. apply list_elem_of_In in Hin. simpl in Hin.
      destruct Hin as [<-|[<-|[<-|[]]]]; vm_compute; reflexivity.
    - intros [|[|[|j]]] Hj; [vm_compute; reflexivity..|lia].
    - vm_compute. reflexivity.
    - vm_compute. reflexivity. }
  apply (f_equal (λ m, entry m 0 0)) in E. vm_compute in E.
  by apply IEEE.Some_float_neq in E.
Qed.

(** C5: on [[1, 1], [1, 0]] the cell (0, 0) has [colZ] and [rowZ] both
    NaN, and [totalZ] is a number there; line 196 writes
    [2 * colZ / sqrt(2)], so the result keeps a NaN in that cell (it is not
    0, and not a value made from [totalZ] like the two assignments before
    it).  In the cell (1, 0), where only [colZ] is NaN, and in the cell
    (0, 1), where only [rowZ] is NaN, the NaN is replaced. *)
Theorem normalize_leaves_nan :
  let x : matrix := [[1; 1]; [1; 0]]%float in
  entry (norm_col x) 0 0 = Some nan ∧ entry (norm_row x) 0 0 = Some nan ∧
  (∃ tz, entry (norm_total x) 0 0 = Some tz ∧ is_nan tz = false) ∧
  entry (_normalize_network x) 0 0 = Some nan ∧
  entry (_normalize_network x) 0 0 ≠ Some 0%float ∧
  (∃ a b, entry (_normalize_network x) 1 0 = Some a ∧ is_nan a = false ∧
          entry (_normalize_network x) 0 1 = Some b ∧ is_nan b = false).
Proof.
  intros x. split_and!.
  - vm_compute. reflexivity.
  - vm_compute. reflexivity.
  - eexists. split; vm_compute; reflexivity.
  - vm_compute. reflexivity.
  - vm_compute. by apply IEEE.Some_float_neq.
  - do 2 eexists. split_and!; vm_compute; reflexivity.
Qed.

(** X21: the NaN replacements of lines 194 and 195.  [totalZ] is the
    z-score with the mean and the standard deviation of the whole array;
    in a cell where [colZ] is NaN and [rowZ] is not, the result is
    [(rowZ + totalZ) / sqrt(2)]; in a cell where [rowZ] is NaN and [colZ] is
    not, it is [(colZ + totalZ) / sqrt(2)]. *)
Theorem normalize_replaces_single_nan (x : matrix) (i j : nat)
    (a cz rz tz : float) :
  entry x i j = Some a →
  entry (norm_col x) i j = Some cz →
  entry (norm_row x) i j = Some rz →
  entry (norm_total x) i j = Some tz →
  tz = ((a - Np.mean (Np.flatten x)) / Np.std (Np.flatten x))%float ∧
  (is_nan cz = true → is_nan rz = false →
   entry (_normalize_network x) i j = Some ((rz + tz) / PrimFloat.sqrt 2)%float) ∧
  (is_nan rz = true → is_nan cz = false →
   entry (_normalize_network x) i j = Some ((cz + tz) / PrimFloat.sqrt 2)%float).
Proof.
  intros Ha Hc Hw Ht. rewrite normalize_entry, Hc, Hw, Ht. simpl.
  rewrite norm_total_entry, Ha in Ht. simpl in Ht. injection Ht as <-.
  unfold cell. split_and!; [done|..]; by intros -> ->.
Qed.

Lemma normalize_replaces_single_nan_witness :
  let x : matrix := [[1; 1]; [1; 0]]%float in
  let tz := ((1 - Np.mean (Np.flatten x)) / Np.std (Np.flatten x))%float in
  entry (_normalize_network x) 1 0 = Some ((1 + tz) / PrimFloat.sqrt 2)%float ∧
  entry (_normalize_network x) 0 1 = Some ((1 + tz) / PrimFloat.sqrt 2)%float.
Proof.
  intros x tz. split.
  - destruct (normalize_replaces_single_nan x 1 0 1 nan 1 tz) as (_ & H & _).
    + reflexivity.
    + vm_compute. reflexivity.
    + vm_compute. reflexivity.
    + vm_compute. reflexivity.
    + apply H; reflexivity.
  - destruct (normalize_replaces_single_nan x 0 1 1 1 nan tz) as (_ & _ & H).
    + reflexivity.
    + vm_compute. reflexivity.
    + vm_compute. reflexivity.
    + vm_compute. reflexivity.
    + apply H; reflexivity.
Defined.

(** ** The convergence loop *)

Section loop.
Variable exp : float → float.
Variables num_tfs num_genes : nat.

Lemma damped_entry (x w : matrix) i j :
  entry (damped x w) i j =
  a ← entry x i j; b ← entry w i j; Some ((1 - alpha) * a + alpha * b)%float.
Proof.
  unfold damped, Np.map1. rewrite entry_map2, !entry_fmap.
  destruct (entry x i j) as [a|]; simpl; [|done].
  destruct (entry w i j) as [b|]; simpl; [|done].
  by rewrite (IEEE.mul_comm a).
Qed.

Lemma damped_scaled (x w : matrix) :
  damped x w =
  Np.map2 PrimFloat.add (Np.map1 (λ a, ((1 - alpha) * a)%float) x)
                        (Np.map1 (λ a, (alpha * a)%float) w).
Proof.
  unfold damped. f_equal. apply map1_ext. intros a. apply IEEE.mul_comm.
Qed.

Lemma iteration_motif_matrix s :
  motif_matrix (iteration exp num_tfs num_genes s) =
  damped (motif_matrix s) (W_of s).
Proof. unfold iteration. by destruct (threshold <? _)%float. Qed.

Lemma iteration_hamming s :
  hamming (iteration exp num_tfs num_genes s) =
  Np.mean (Np.flatten (Np.map1 abs
    (Np.map2 PrimFloat.sub (motif_matrix s) (W_of s)))).
Proof. unfold iteration. by destruct (threshold <? _)%float. Qed.

Lemma iteration_step s :
  step (iteration exp num_tfs num_genes s) = S (step s).
Proof. unfold iteration. by destruct (threshold <? _)%float. Qed.

(** C1: one pass of the loop body, entered with [motif], [ppi] and
    [correlation], computes [W = 0.5 * (T(ppi, motif) + T(motif, correlation))],
    sets [hamming] to the mean of [|motif - W|] over all entries, and replaces
    [motif] by [(1 - alpha) * motif + alpha * W]; the update of [motif] does
    not depend on the test on [hamming], so the last pass makes it too. *)
Theorem iteration_updates_motif (s : locals) :
  let T1 := t_function (ppi_matrix s) (Some (motif_matrix s)) in
  let T2 := t_function (motif_matrix s) (Some (correlation_matrix s)) in
  let W := Np.map1 (λ a, (0.5 * a)%float) (Np.map2 PrimFloat.add T1 T2) in
  let s' := iteration exp num_tfs num_genes s in
  (∀ i j, entry W i j =
          t1 ← entry T1 i j; t2 ← entry T2 i j; Some (0.5 * (t1 + t2))%float) ∧
  hamming s' =
    Np.mean (Np.flatten (Np.map1 abs (Np.map2 PrimFloat.sub (motif_matrix s) W))) ∧
  motif_matrix s' =
    Np.map2 PrimFloat.add (Np.map1 (λ a, ((1 - alpha) * a)%float) (motif_matrix s))
                          (Np.map1 (λ a, (alpha * a)%float) W) ∧
  (∀ i j, entry (motif_matrix s') i j =
          m ← entry (motif_matrix s) i j; w ← entry W i j;
          Some ((1 - alpha) * m + alpha * w)%float).
Proof.
  intros T1 T2 W s'. split_and!.
  - intros i j. unfold W, Np.map1. rewrite entry_fmap, entry_map2.
    destruct (entry T1 i j); simpl; [|done]. by destruct (entry T2 i j).
  - apply iteration_hamming.
  - unfold s'. rewrite iteration_motif_matrix. apply damped_scaled.
  - intros i j. unfold s'. rewrite iteration_motif_matrix. apply damped_entry.
Qed.

Lemma iteration_last_pass s :
  (threshold <? hamming (iteration exp num_tfs num_genes s))%float = false →
  correlation_matrix (iteration exp num_tfs num_genes s) = correlation_matrix s ∧
  ppi_matrix (iteration exp num_tfs num_genes s) = ppi_matrix s.
Proof.
  rewrite iteration_hamming. unfold iteration. by intros ->.
Qed.

Lemma while_loop_unfold fuel s :
  while_loop exp fuel num_tfs num_genes s =
  if (threshold <? hamming s)%float then
    match fuel with
    | 0 => None
    | S fuel =>
        while_loop exp fuel num_tfs num_genes (iteration exp num_tfs num_genes s)
    end
  else Some s.
Proof. by destruct fuel. Qed.

(** C2, as the code has it: the loop starts from [step = 0] and
    [hamming = 1], which passes the test, with [alpha = 0.1] and the
    threshold [0.001]; it goes on while [hamming > 0.001] and stops as soon as
    this test fails on the freshly computed [hamming], that is when
    [hamming <= 0.001] or [hamming] is NaN; on that last pass [ppi] and the
    coexpression array are left as they were and [motif] has received its
    damped update. *)
Theorem while_loop_control (fuel : nat) (s : locals) :
  let s' := iteration exp num_tfs num_genes s in
  (∀ c m p, step (initial c m p) = 0 ∧ hamming (initial c m p) = 1%float ∧
            (threshold <? hamming (initial c m p))%float = true) ∧
  alpha = 0x1.999999999999ap-4%float ∧
  threshold = 0x1.0624dd2f1a9fcp-10%float ∧
  ((threshold <? hamming s)%float = true →
   while_loop exp (S fuel) num_tfs num_genes s =
   while_loop exp fuel num_tfs num_genes s') ∧
  ((threshold <? hamming s)%float = false →
   while_loop exp fuel num_tfs num_genes s = Some s) ∧
  ((threshold <? hamming s')%float = false ↔
   (hamming s' <=? threshold)%float = true ∨ is_nan (hamming s') = true) ∧
  ((threshold <? hamming s')%float = false →
   correlation_matrix s' = correlation_matrix s ∧
   ppi_matrix s' = ppi_matrix s ∧
   motif_matrix s' = damped (motif_matrix s) (W_of s)).
Proof.
  intros s'. split_and!; try done.
  - intros Ht. by rewrite while_loop_unfold, Ht.
  - intros Ht. by rewrite while_loop_unfold, Ht.
  - rewrite IEEE.ltb_false_iff. split; [|tauto].
    intros [?|[Hn|?]]; [tauto| |tauto]. by vm_compute in Hn.
  - intros Ht. destruct (iteration_last_pass _ Ht) as [??].
    split_and!; try done. apply iteration_motif_matrix.
Qed.

End loop.

(** The claim C2 has the loop stop exactly when the new [hamming] is
    [<= 0.001].  A prior in which a regulator binds every target and a target
    is bound by every regulator leaves a NaN in the normalized motif array
    (see [_normalize_network]); [hamming] is then NaN after the first pass and
    the loop stops, although [hamming <= 0.001] does not hold. *)
Lemma while_loop_stops_on_nan :
  ¬ (∀ (exp : float → float) (num_tfs num_genes : nat) (s : locals),
       (threshold <? hamming s)%float = true →
       (while_loop exp 1 num_tfs num_genes s
          = Some (iteration exp num_tfs num_genes s) ↔
        (hamming (iteration exp num_tfs num_genes s) <=? threshold)%float = true)).
Proof.
  intros H.
  pose (s := initial (_normalize_network (Np.identity 2))
                     (_normalize_network [[1; 1]; [1; 0]]%float)
                     (_normalize_network (Np.identity 2))).
  destruct (H exp_series 2 2 s eq_refl) as [H1 _].
  assert ((hamming (iteration exp_series 2 2 s) <=? threshold)%float = false)
    as Hf by (vm_compute; reflexivity).
  rewrite H1 in Hf; [discriminate|]. vm_compute. reflexivity.
Qed.

(** ** The diagonal *)

Lemma fill_diagonal_lookup (x : matrix) v i :
  Np.fill_diagonal x v !! i = (λ row, <[i := v]> row) <$> x !! i.
Proof. unfold Np.fill_diagonal. by rewrite list_lookup_imap. Qed.

Lemma shaped_fill_diagonal r c (x : matrix) v :
  shaped r c x → shaped r c (Np.fill_diagonal x v).
Proof.
  intros [Hl Hx]. apply shaped_of_entries.
  - unfold Np.fill_diagonal. by rewrite length_imap.
  - intros i row. rewrite fill_diagonal_lookup.
    destruct (x !! i) as [row'|] eqn:E; simpl; [|done]. intros [= <-].
    rewrite length_insert. by eapply (Forall_lookup_1 _ _ _ _ Hx).
Qed.

Lemma fill_diagonal_with_lookup n (x : matrix) (vs : fvec) i v :
  length vs = n → vs !! i = Some v →
  Np.fill_diagonal_with x vs !! i = (λ row, <[i := v]> row) <$> x !! i.
Proof.
  intros Hn Hv. unfold Np.fill_diagonal_with. rewrite list_lookup_imap.
  apply lookup_lt_Some in Hv as Hlt.
  rewrite Nat.mod_small by done. by rewrite Hv.
Qed.

Lemma shaped_fill_diagonal_with r c (x : matrix) vs :
  shaped r c x → shaped r c (Np.fill_diagonal_with x vs).
Proof.
  intros [Hl Hx]. apply shaped_of_entries; unfold Np.fill_diagonal_with.
  - by rewrite length_imap.
  - intros i row. rewrite list_lookup_imap.
    destruct (x !! i) as [row'|] eqn:E; simpl; [|done]. intros [= <-].
    destruct (vs !! _); rewrite ?length_insert; by eapply (Forall_lookup_1 _ _ _ _ Hx).
Qed.

Section update_diagonal.
Variable exp : float → float.

Lemma shaped_update_diagonal r c (x : matrix) num alpha step :
  shaped r c x → shaped r c (update_diagonal exp x num alpha step).
Proof.
  intros Hs. unfold update_diagonal.
  by apply shaped_fill_diagonal_with, shaped_fill_diagonal.
Qed.

Lemma update_diagonal_lookup (x : matrix) num alpha step i row :
  x !! i = Some row →
  update_diagonal exp x num alpha step !! i =
  Some (<[i := (Np.nanstd (<[i := nan]> row) * of_nat num
                * exp (2 * alpha * of_nat step))%float]> row).
Proof.
  intros Hrow. unfold update_diagonal.
  erewrite (fill_diagonal_with_lookup (length x)).
  - rewrite fill_diagonal_lookup, Hrow. simpl. by rewrite list_insert_insert_eq.
  - rewrite !length_fmap. unfold Np.fill_diagonal. by rewrite length_imap.
  - by rewrite !list_lookup_fmap, fill_diagonal_lookup, Hrow.
Qed.

(** C6: [update_diagonal] on a square array keeps the shape, puts on the
    diagonal, in row i, the NaN-ignoring standard deviation of row i with
    its diagonal entry set to NaN, times [num], times
    [exp(2 * alpha * step)], and leaves every other entry as it was.  The
    in-place update is the returned array. *)
Theorem update_diagonal_spec (n : nat) (x : matrix) (num : nat) (alpha : float)
    (step i : nat) (row : fvec) :
  shaped n n x → x !! i = Some row →
  shaped n n (update_diagonal exp x num alpha step) ∧
  entry (update_diagonal exp x num alpha step) i i =
    Some (Np.nanstd (<[i := nan]> row) * of_nat num
          * exp (2 * alpha * of_nat step))%float ∧
  (∀ j, j ≠ i →
     entry (update_diagonal exp x num alpha step) i j = entry x i j).
Proof.
  intros Hs Hrow. destruct (shaped_lookup _ _ _ _ _ Hs Hrow) as [Hi Hlen].
  split_and!.
  - by apply shaped_update_diagonal.
  - unfold entry. rewrite (update_diagonal_lookup _ _ _ _ _ _ Hrow). simpl.
    apply list_lookup_insert_eq. lia.
  - intros j Hj. unfold entry.
    rewrite (update_diagonal_lookup _ _ _ _ _ _ Hrow), Hrow. simpl.
    by apply list_lookup_insert_ne.
Qed.

End update_diagonal.

Lemma update_diagonal_spec_witness :
  let x : matrix := [[5; 1; 2]; [1; 7; 3]; [2; 3; 9]]%float in
  shaped 3 3 (update_diagonal exp_series x 3 alpha 4) ∧
  entry (update_diagonal exp_series x 3 alpha 4) 1 1 =
    Some (Np.nanstd (<[1%nat := nan]> [1; 7; 3]) * of_nat 3
          * exp_series (2 * alpha * of_nat 4))%float ∧
  (∀ j, j ≠ 1 →
     entry (update_diagonal exp_series x 3 alpha 4) 1 j = entry x 1 j).
Proof.
  intros x. apply (update_diagonal_spec exp_series 3 x 3 alpha 4 1).
  - split; [reflexivity|]. repeat constructor.
  - reflexivity.
Defined.

(** ** Cleaning the coexpression array *)

Lemma entry_fill_diagonal (x : matrix) v i j a :
  entry x i j = Some a →
  entry (Np.fill_diagonal x v) i j = Some (if decide (i = j) then v else a).
Proof.
  intros (row & Hrow & Ha)%entry_Some. unfold entry.
  rewrite fill_diagonal_lookup, Hrow. simpl. case_decide as Hij.
  - subst j. apply list_lookup_insert_eq. by eapply lookup_lt_Some.
  - by rewrite list_lookup_insert_ne.
Qed.

Lemma nan_to_num1_finite (a : float) :
  is_nan a = false → a ≠ infinity → a ≠ neg_infinity → Np.nan_to_num1 a = a.
Proof.
  intros Hn Hp Hm. unfold Np.nan_to_num1.
  by rewrite Hn, IEEE.eqb_infinity_false, IEEE.eqb_neg_infinity_false.
Qed.

(** C10: when the coexpression array has no NaN it is left as it is;
    when it has one, every diagonal entry becomes 1 and, off the diagonal,
    every NaN becomes 0 while the finite entries stay. *)
Theorem clean_correlation_spec (x : matrix) :
  (Np.any (Np.isnan x) = false → clean_correlation x = x) ∧
  (Np.any (Np.isnan x) = true →
   ∀ i j a, entry x i j = Some a →
     (i = j → entry (clean_correlation x) i j = Some 1%float) ∧
     (i ≠ j → is_nan a = true →
      entry (clean_correlation x) i j = Some 0%float) ∧
     (i ≠ j → is_nan a = false → a ≠ infinity → a ≠ neg_infinity →
      entry (clean_correlation x) i j = Some a)).
Proof.
  unfold clean_correlation. split; intros ->; [done|].
  intros i j a Ha. unfold Np.nan_to_num, Np.map1.
  rewrite entry_fmap, (entry_fill_diagonal _ _ _ _ _ Ha). simpl.
  split_and!.
  - intros ->. by rewrite decide_True.
  - intros Hij Hn. rewrite decide_False by done. unfold Np.nan_to_num1.
    by rewrite Hn.
  - intros Hij Hn Hp Hm. rewrite decide_False by done.
    by rewrite nan_to_num1_finite.
Qed.

(** * Further properties of the code *)

(** ** Flattening and repetition *)

Section flatten.
Context {A : Type}.
Implicit Types (x : list (list A)).

Lemma concat_shaped_length r c x : shaped r c x → length (concat x) = r * c.
Proof.
  intros [<- Hx]. induction Hx as [|row x Hrow _ IH]; simpl; [done|].
  rewrite length_app, IH, Hrow. lia.
Qed.

(** Row-major position of the entry (i, j). *)
Lemma concat_shaped_lookup r c x i j :
  shaped r c x → j < c → concat x !! (i * c + j) = entry x i j.
Proof.
  intros [_ Hx] Hj. revert i.
  induction Hx as [|row x Hrow _ IH]; intros i; simpl; [done|].
  destruct i as [|i]; simpl.
  - unfold entry. simpl. apply lookup_app_l. lia.
  - rewrite lookup_app_r by lia.
    replace (c + i * c + j - length row) with (i * c + j) by lia. apply IH.
Qed.

Lemma shaped_replicate r c (l : list A) :
  length l = c → shaped r c (replicate r l).
Proof.
  intros Hl. split; [by rewrite length_replicate|]. by apply Forall_replicate.
Qed.

Lemma shaped_cols r c x :
  shaped r c x → 0 < r → shaped c r ((λ j, Np.col j x) <$> seq 0 (ncols x)).
Proof.
  intros Hs Hr. rewrite (shaped_ncols _ _ _ Hs Hr). destruct Hs as [Hl Hx]. split.
  - by rewrite length_fmap, length_seq.
  - apply Forall_fmap, Forall_forall. intros j Hj%elem_of_seq. simpl.
    rewrite (col_length _ c) by (done || lia). done.
Qed.

Lemma entry_cols r c x i j :
  shaped r c x → 0 < r → j < c →
  entry ((λ j, Np.col j x) <$> seq 0 (ncols x)) j i = entry x i j.
Proof.
  intros Hs Hr Hj. rewrite (shaped_ncols _ _ _ Hs Hr). unfold entry at 1.
  rewrite list_lookup_fmap, lookup_seq_lt by done. simpl.
  apply (col_lookup _ c); [apply Hs|done].
Qed.

(** Column-major position of the entry (i, j). *)
Lemma flatten_F_lookup r c x i j :
  shaped r c x → 0 < r → i < r → j < c →
  Np.flatten_F x !! (j * r + i) = entry x i j.
Proof.
  intros Hs Hr Hi Hj. unfold Np.flatten_F.
  rewrite (concat_shaped_lookup c r) by (by apply shaped_cols || done).
  by apply (entry_cols r c).
Qed.

Lemma flatten_F_length r c x :
  shaped r c x → 0 < r → length (Np.flatten_F x) = c * r.
Proof.
  intros Hs Hr. unfold Np.flatten_F. apply concat_shaped_length.
  by apply shaped_cols.
Qed.

Lemma tile_flat_length (a : list A) n :
  length (Np.tile_flat a n) = n * length a.
Proof. apply concat_shaped_length. by apply shaped_replicate. Qed.

Lemma tile_flat_lookup (a : list A) n c i j :
  length a = c → j < n → i < c → Np.tile_flat a n !! (j * c + i) = a !! i.
Proof.
  intros <- Hj Hi. unfold Np.tile_flat.
  rewrite (concat_shaped_lookup n (length a)) by (by apply shaped_replicate || done).
  unfold entry. by rewrite lookup_replicate_2.
Qed.

Lemma repeat_concat (a : list A) n :
  Np.repeat a n = concat (replicate n <$> a).
Proof.
  unfold Np.repeat. induction a as [|b a IH]; [done|]. csimpl. by rewrite IH.
Qed.

Lemma shaped_repeat_rows (a : list A) n :
  shaped (length a) n (replicate n <$> a).
Proof.
  split; [by rewrite length_fmap|].
  apply Forall_fmap, Forall_forall. intros b _. simpl. by rewrite length_replicate.
Qed.

Lemma repeat_length (a : list A) n : length (Np.repeat a n) = length a * n.
Proof. rewrite repeat_concat. apply concat_shaped_length, shaped_repeat_rows. Qed.

Lemma repeat_lookup (a : list A) n i j :
  i < n → Np.repeat a n !! (j * n + i) = a !! j.
Proof.
  intros Hi. rewrite repeat_concat.
  rewrite (concat_shaped_lookup (length a) n) by (apply shaped_repeat_rows || done).
  unfold entry. rewrite list_lookup_fmap. destruct (a !! j); simpl; [|done].
  by rewrite lookup_replicate_2.
Qed.

End flatten.

(** ** Shapes along the loop *)

Lemma shaped_damped r c (x w : matrix) :
  shaped r c x → shaped r c w → shaped r c (damped x w).
Proof. intros. unfold damped. by apply shaped_map2; apply shaped_map1. Qed.

Section shapes.
Variable exp : float → float.
Variables (T G : nat).
Hypothesis HT : 0 < T.
Hypothesis HG : 0 < G.

Lemma shaped_W_of s : well_shaped T G s → shaped T G (W_of s).
Proof.
  intros (Hp & Hm & Hc). unfold W_of. apply shaped_map1, shaped_map2.
  - by apply (shaped_t_function_2 T T G).
  - by apply (shaped_t_function_2 T G G).
Qed.

Lemma iteration_well_shaped nt ng s :
  well_shaped T G s → well_shaped T G (iteration exp nt ng s).
Proof.
  intros Hs. pose proof (shaped_W_of s Hs) as HW. destruct Hs as (Hp & Hm & Hc).
  assert (shaped T G (damped (motif_matrix s) (W_of s))) as Hm'
    by by apply shaped_damped.
  unfold iteration. destruct (threshold <? _)%float; split_and!; simpl; try done.
  - apply shaped_damped; [done|]. apply shaped_update_diagonal.
    by apply (shaped_t_function_1 T G).
  - apply shaped_damped; [done|]. apply shaped_update_diagonal.
    apply (shaped_t_function_1 G T). by apply shaped_transpose.
Qed.

Lemma while_loop_well_shaped fuel nt ng s s' :
  well_shaped T G s → while_loop exp fuel nt ng s = Some s' → well_shaped T G s'.
Proof.
  revert s. induction fuel as [|fuel IH]; intros s Hs; simpl.
  - destruct (threshold <? _)%float; [done|]. by intros [= <-].
  - destruct (threshold <? _)%float; [|by intros [= <-]].
    apply IH. by apply iteration_well_shaped.
Qed.

End shapes.

(** *** The edge list *)

Lemma DataFrame_lookup tfs genes motifs forces es p t g u w :
  DataFrame tfs genes motifs forces = Some es →
  tfs !! p = Some t → genes !! p = Some g →
  motifs !! p = Some u → forces !! p = Some w →
  es !! p = Some (Edge t g u w).
Proof.
  unfold DataFrame. case_decide; [|done]. intros [= <-] Ht Hg Hu Hw.
  rewrite lookup_zip_with.
  rewrite (proj2 (lookup_zip_with_Some pair tfs genes p (t, g))) by eauto.
  simpl.
  rewrite (proj2 (lookup_zip_with_Some pair motifs forces p (u, w))) by eauto.
  done.
Qed.

Lemma DataFrame_length tfs genes motifs forces es :
  DataFrame tfs genes motifs forces = Some es → length es = length tfs.
Proof.
  unfold DataFrame. case_decide as H; [|done]. intros [= <-].
  destruct H as (? & ? & ?). rewrite !length_zip_with. lia.
Qed.

Lemma DataFrame_labels tfs genes motifs forces es :
  DataFrame tfs genes motifs forces = Some es →
  (λ e, (tf e, gene e)) <$> es = zip tfs genes.
Proof.
  unfold DataFrame. case_decide as H; [|done]. intros [= <-].
  apply list_eq. intros p. rewrite list_lookup_fmap, lookup_zip_with.
  destruct (zip tfs genes !! p) as [[t g]|] eqn:E; simpl; [|done].
  destruct (zip motifs forces !! p) as [[u w]|] eqn:E'; simpl; [done|].
  apply lookup_lt_Some in E. apply lookup_ge_None in E'.
  destruct H as (? & ? & ?). rewrite !length_zip_with in *. lia.
Qed.

Section export.
Variables (k : kept) (M : matrix) (T G : nat).
Hypothesis Htfs : length (unique_tfs k) = T.
Hypothesis Hgenes : length (gene_names k) = G.
Hypothesis HT : 0 < T.
Hypothesis HU : shaped T G (motif_matrix_unnormalized k).
Hypothesis HM : shaped T G M.

Lemma export_Some : ∃ es, export k T M = Some es ∧ length es = T * G.
Proof.
  unfold export.
  destruct (DataFrame _ _ _ _) as [es|] eqn:E.
  - exists es. split; [done|]. rewrite (DataFrame_length _ _ _ _ _ E).
    rewrite tile_flat_length. lia.
  - unfold DataFrame in E. rewrite decide_True in E; [done|].
    rewrite tile_flat_length, repeat_length,
      !(flatten_F_length T G) by done. lia.
Qed.

Lemma export_lookup es i j t g u w :
  export k T M = Some es →
  unique_tfs k !! i = Some t → gene_names k !! j = Some g →
  entry (motif_matrix_unnormalized k) i j = Some u → entry M i j = Some w →
  es !! (j * T + i) = Some (Edge t g u w).
Proof.
  intros Hes Ht Hg Hu Hw.
  apply lookup_lt_Some in Ht as Hi. apply lookup_lt_Some in Hg as Hj.
  rewrite Htfs in Hi. rewrite Hgenes in Hj.
  apply (DataFrame_lookup _ _ _ _ _ _ _ _ _ _ Hes).
  - rewrite (tile_flat_lookup _ _ T); [done..|lia|done].
  - by rewrite repeat_lookup.
  - by rewrite (flatten_F_lookup T G).
  - by rewrite (flatten_F_lookup T G).
Qed.

Lemma export_labels_NoDup es :
  export k T M = Some es →
  NoDup (unique_tfs k) → NoDup (gene_names k) →
  NoDup ((λ e, (tf e, gene e)) <$> es).
Proof.
  intros Hes Ht Hg. unfold export in Hes.
  rewrite (DataFrame_labels _ _ _ _ _ Hes).
  apply NoDup_alt. intros p q [t g] Hp Hq.
  apply lookup_zip_with_Some in Hp as (t1 & g1 & [= <- <-] & Hp1 & Hp2).
  apply lookup_zip_with_Some in Hq as (t2 & g2 & [= <- <-] & Hq1 & Hq2).
  apply lookup_lt_Some in Hp1 as Hlp. rewrite tile_flat_length, Htfs, Hgenes in Hlp.
  apply lookup_lt_Some in Hq1 as Hlq. rewrite tile_flat_length, Htfs, Hgenes in Hlq.
  assert (∀ n, n < G * T →
            ∃ j i, n = j * T + i ∧ j < G ∧ i < T) as Hsplit.
  { intros n Hn. exists (n `div` T), (n `mod` T). split_and!.
    - rewrite (Nat.mul_comm _ T). apply Nat.div_mod_eq.
    - apply Nat.Div0.div_lt_upper_bound. lia.
    - apply Nat.mod_upper_bound. lia. }
  destruct (Hsplit p Hlp) as (j & i & -> & Hj & Hi).
  destruct (Hsplit q Hlq) as (j' & i' & -> & Hj' & Hi').
  rewrite (tile_flat_lookup _ _ T) in Hp1, Hq1 by (done || lia).
  rewrite repeat_lookup in Hp2, Hq2 by done.
  pose proof (NoDup_lookup _ _ _ _ Ht Hp1 Hq1).
  pose proof (NoDup_lookup _ _ _ _ Hg Hp2 Hq2). congruence.
Qed.

End export.

(** ** The edge list and the run *)

(** X1: for [T] regulator labels, [G] target labels and [T] by [G]
    arrays, the edge list has [T * G] rows; row [j * T + i] holds regulator
    [i], target [j], the entry (i, j) of the unnormalized prior and the entry
    (i, j) of the motif array; distinct labels give distinct (regulator,
    target) pairs. *)
Theorem export_edges (k : kept) (M : matrix) (T G : nat) :
  length (unique_tfs k) = T → length (gene_names k) = G → 0 < T →
  shaped T G (motif_matrix_unnormalized k) → shaped T G M →
  ∃ es, export k T M = Some es ∧ length es = T * G ∧
    (∀ i j t g u w,
       unique_tfs k !! i = Some t → gene_names k !! j = Some g →
       entry (motif_matrix_unnormalized k) i j = Some u →
       entry M i j = Some w →
       es !! (j * T + i) = Some (Edge t g u w)) ∧
    (NoDup (unique_tfs k) → NoDup (gene_names k) →
     NoDup ((λ e, (tf e, gene e)) <$> es)).
Proof.
  intros Htfs Hgenes HT HU HM.
  destruct (export_Some k M T G Htfs Hgenes HT HU HM) as (es & Hes & Hlen).
  exists es. split_and!; [done..| |].
  - intros i j t g u w. by apply (export_lookup k M T G).
  - by apply (export_labels_NoDup k M T G).
Qed.

Lemma export_edges_witness :
  let k := Kept ["A"; "B"] ["g1"; "g2"; "g3"]
                [[1; 0; 0]; [1; 1; 0]]%float in
  let M : matrix := [[2; 3; 4]; [5; 6; 7]]%float in
  ∃ es, export k 2 M = Some es ∧ length es = 2 * 3 ∧
    (∀ i j t g u w,
       unique_tfs k !! i = Some t → gene_names k !! j = Some g →
       entry (motif_matrix_unnormalized k) i j = Some u →
       entry M i j = Some w →
       es !! (j * 2 + i) = Some (Edge t g u w)) ∧
    (NoDup (unique_tfs k) → NoDup (gene_names k) →
     NoDup ((λ e, (tf e, gene e)) <$> es)).
Proof.
  intros k M. apply (export_edges k M 2 3).
  - reflexivity.
  - reflexivity.
  - lia.
  - split; [reflexivity|]. repeat constructor.
  - split; [reflexivity|]. repeat constructor.
Defined.

Section run.
Variable exp : float → float.

Lemma panda_loop_inv fuel o o' net :
  panda_loop exp fuel o = Some (o', net) →
  ∃ s, while_loop exp fuel (nrows (self_motif_matrix o)) (ncols (self_motif_matrix o))
         (initial (self_correlation_matrix o) (self_motif_matrix o)
                  (self_ppi_matrix o)) = Some s ∧
       o' = Self (self_kept o) (num_tfs o) (correlation_matrix s)
                 (motif_matrix s) (ppi_matrix s)
                 (match self_kept o with
                  | Some k => export k (num_tfs o) (motif_matrix s)
                  | None => export_panda_results o
                  end)
                 (panda_network o) ∧
       net = motif_matrix s.
Proof.
  unfold panda_loop. destruct (while_loop _ _ _ _ _) as [s|]; simpl; [|done].
  intros [= <- <-]. by exists s.
Qed.

(** X2: the loop never changes the shape of its three arrays: one pass
    keeps them, and so does any finished run. *)
Theorem loop_keeps_shapes (T G fuel nt ng : nat) (s : locals) :
  0 < T → 0 < G →
  shaped T T (ppi_matrix s) → shaped T G (motif_matrix s) →
  shaped G G (correlation_matrix s) →
  (shaped T T (ppi_matrix (iteration exp nt ng s)) ∧
   shaped T G (motif_matrix (iteration exp nt ng s)) ∧
   shaped G G (correlation_matrix (iteration exp nt ng s))) ∧
  (∀ s', while_loop exp fuel nt ng s = Some s' →
     shaped T T (ppi_matrix s') ∧ shaped T G (motif_matrix s') ∧
     shaped G G (correlation_matrix s')).
Proof.
  intros HT HG Hp Hm Hc. split.
  - by apply (iteration_well_shaped exp T G HT HG).
  - intros s' Hs. by apply (while_loop_well_shaped exp T G HT HG fuel nt ng s).
Qed.

(** X3: [panda_loop] updates the object's arrays in place: the array it
    returns is the object's motif array, the shapes are kept, the edge list
    is built from that final array when the labels were kept and is left as
    it was when [save_memory] removed them. *)
Theorem panda_loop_result (fuel T G : nat) (o o' : self) (net : matrix) :
  0 < T → 0 < G →
  shaped T T (self_ppi_matrix o) → shaped T G (self_motif_matrix o) →
  shaped G G (self_correlation_matrix o) →
  panda_loop exp fuel o = Some (o', net) →
  net = self_motif_matrix o' ∧ shaped T G net ∧
  shaped T T (self_ppi_matrix o') ∧ shaped G G (self_correlation_matrix o') ∧
  self_kept o' = self_kept o ∧
  (∀ k, self_kept o = Some k →
        export_panda_results o' = export k (num_tfs o) net) ∧
  (self_kept o = None → export_panda_results o' = export_panda_results o).
Proof.
  intros HT HG Hp Hm Hc (s & Hs & -> & ->)%panda_loop_inv.
  apply (while_loop_well_shaped exp T G HT HG) in Hs as (Hp' & Hm' & Hc');
    [|done].
  simpl. split_and!; try done.
  - by intros k ->.
  - by intros ->.
Qed.

End run.

Lemma loop_keeps_shapes_witness :
  (shaped 2 2 (ppi_matrix (iteration exp_series 2 2 ex_locals)) ∧
   shaped 2 2 (motif_matrix (iteration exp_series 2 2 ex_locals)) ∧
   shaped 2 2 (correlation_matrix (iteration exp_series 2 2 ex_locals))) ∧
  (∀ s', while_loop exp_series 3 2 2 ex_locals = Some s' →
     shaped 2 2 (ppi_matrix s') ∧ shaped 2 2 (motif_matrix s') ∧
     shaped 2 2 (correlation_matrix s')).
Proof.
  apply (loop_keeps_shapes exp_series 2 2 3 2 2 ex_locals); try lia.
  - split; [reflexivity|]. repeat constructor.
  - split; [reflexivity|]. repeat constructor.
  - split; [reflexivity|]. repeat constructor.
Defined.

Lemma panda_loop_result_witness :
  let o := ex_nan_self in
  let o' := ex_nan_run.1 in
  let net := ex_nan_run.2 in
  net = self_motif_matrix o' ∧ shaped 2 2 net ∧
  shaped 2 2 (self_ppi_matrix o') ∧ shaped 2 2 (self_correlation_matrix o') ∧
  self_kept o' = self_kept o ∧
  (∀ k, self_kept o = Some k →
        export_panda_results o' = export k (num_tfs o) net) ∧
  (self_kept o = None → export_panda_results o' = export_panda_results o).
Proof.
  intros o o' net.
  apply (panda_loop_result exp_series 1 2 2 o o' net); try lia.
  - split; [reflexivity|]. repeat constructor.
  - split; [reflexivity|]. repeat constructor.
  - split; [reflexivity|]. repeat constructor.
  - vm_compute. reflexivity.
Defined.

(** ** Symmetry *)

Lemma dot1_comm (u v : fvec) : Np.dot1 u v = Np.dot1 v u.
Proof.
  unfold Np.dot1. f_equal. revert v.
  induction u as [|a u IH]; intros [|b v]; simpl; try done.
  by rewrite IEEE.mul_comm, IH.
Qed.

Lemma t_function_1_entry_None (x : matrix) i j :
  x !! i = None ∨ x !! j = None → entry (t_function x None) i j = None.
Proof.
  intros H. unfold t_function, Np.map1.
  rewrite entry_map2, entry_dot_T.
  destruct H as [-> | ->]; [done|]. by destruct (x !! i).
Qed.

Lemma symmetric_t_function (x : matrix) : symmetric (t_function x None).
Proof.
  intros i j.
  destruct (x !! i) as [ri|] eqn:Hi; [|by rewrite !t_function_1_entry_None by auto].
  destruct (x !! j) as [rj|] eqn:Hj; [|by rewrite !t_function_1_entry_None by auto].
  rewrite (t_function_1_entry _ _ _ _ _ Hi Hj), (t_function_1_entry _ _ _ _ _ Hj Hi).
  simpl. by rewrite (dot1_comm rj ri), (IEEE.add_comm (Np.sumsq ri)).
Qed.

Lemma symmetric_damped (x w : matrix) :
  symmetric x → symmetric w → symmetric (damped x w).
Proof. intros Hx Hw i j. by rewrite !damped_entry, Hx, Hw. Qed.

Section diag.
Variable exp : float → float.

Lemma update_diagonal_length (x : matrix) num alpha step :
  length (update_diagonal exp x num alpha step) = length x.
Proof.
  unfold update_diagonal, Np.fill_diagonal_with, Np.fill_diagonal.
  by rewrite !length_imap.
Qed.

Lemma update_diagonal_entry_ne (x : matrix) num alpha step i j :
  i ≠ j → entry (update_diagonal exp x num alpha step) i j = entry x i j.
Proof.
  intros Hij. unfold entry. destruct (x !! i) as [row|] eqn:Hrow.
  - rewrite (update_diagonal_lookup _ _ _ _ _ _ _ Hrow). simpl.
    by apply list_lookup_insert_ne.
  - apply lookup_ge_None in Hrow.
    rewrite (proj2 (lookup_ge_None _ _)); [done|].
    by rewrite update_diagonal_length.
Qed.

Lemma symmetric_update_diagonal (x : matrix) num alpha step :
  symmetric x → symmetric (update_diagonal exp x num alpha step).
Proof.
  intros Hx i j. destruct (decide (i = j)) as [->|Hij]; [done|].
  rewrite !update_diagonal_entry_ne by done. apply Hx.
Qed.

Lemma iteration_symmetric nt ng (s : locals) :
  symmetric (ppi_matrix s) → symmetric (correlation_matrix s) →
  symmetric (ppi_matrix (iteration exp nt ng s)) ∧
  symmetric (correlation_matrix (iteration exp nt ng s)).
Proof.
  intros Hp Hc. unfold iteration. destruct (threshold <? _)%float; simpl; [|done].
  split; apply symmetric_damped; try done;
    apply symmetric_update_diagonal, symmetric_t_function.
Qed.

Lemma while_loop_symmetric fuel nt ng (s s' : locals) :
  symmetric (ppi_matrix s) → symmetric (correlation_matrix s) →
  while_loop exp fuel nt ng s = Some s' →
  symmetric (ppi_matrix s') ∧ symmetric (correlation_matrix s').
Proof.
  revert s. induction fuel as [|fuel IH]; intros s Hp Hc; simpl.
  - destruct (threshold <? _)%float; [done|]. by intros [= <-].
  - destruct (threshold <? _)%float; [|by intros [= <-]].
    destruct (iteration_symmetric nt ng s Hp Hc). by apply IH.
Qed.

End diag.

Lemma cell_comm cz rz tz : cell cz rz tz = cell rz cz tz.
Proof.
  unfold cell. destruct (is_nan cz) eqn:Ec, (is_nan rz) eqn:Er; simpl.
  - apply IEEE.is_nan_true in Ec, Er. by subst.
  - done.
  - done.
  - by rewrite IEEE.add_comm.
Qed.

Lemma symmetric_normalize r (x : matrix) :
  shaped r r x → symmetric x → symmetric (_normalize_network x).
Proof.
  intros Hs Hx i j. destruct (decide (0 < r)) as [Hr|Hr].
  - rewrite !normalize_entry, !(norm_row_entry_square r) by done.
    rewrite !norm_total_entry, (Hx j i).
    destruct (entry (norm_col x) i j) as [a|], (entry (norm_col x) j i) as [b|];
      simpl; try done.
    + destruct (entry x i j); simpl; [|done]. by rewrite cell_comm.
  - destruct Hs as [Hl _]. destruct x; [|simpl in Hl; lia].
    done.
Qed.

Lemma symmetric_normalize_no_nan r (x : matrix) :
  shaped r r x → Np.any (Np.isnan (norm_col x)) = false →
  symmetric (_normalize_network x).
Proof.
  intros Hs Hn i j. destruct (decide (0 < r)) as [Hr|Hr].
  - rewrite !normalize_entry, !(norm_row_entry_square r) by done.
    pose proof (proj1 (any_isnan_false _) Hn) as Hnan.
    destruct (entry (norm_col x) i j) as [a|] eqn:Ea,
             (entry (norm_col x) j i) as [b|] eqn:Eb; simpl; try done.
    pose proof (shaped_norm_col _ _ _ Hs Hr) as Hsc.
    destruct (entry_shaped_Some _ _ _ _ _ _ Hsc Ea) as [Hi Hj].
    destruct (entry_lt _ _ _ _ _ (shaped_norm_total _ _ _ Hs) Hi Hj) as [t1 ->].
    destruct (entry_lt _ _ _ _ _ (shaped_norm_total _ _ _ Hs) Hj Hi) as [t2 ->].
    simpl. f_equal.
    rewrite !cell_no_nan by eauto. by rewrite IEEE.add_comm.
  - destruct Hs as [Hl _]. destruct x; [|simpl in Hl; lia]. done.
Qed.

Lemma symmetric_normalize_either r (x : matrix) :
  shaped r r x →
  symmetric x ∨ Np.any (Np.isnan (norm_col x)) = false →
  symmetric (_normalize_network x).
Proof.
  intros Hs [Hx|Hn].
  - by apply (symmetric_normalize r).
  - by apply (symmetric_normalize_no_nan r).
Qed.

(** X4: the one-argument [t_function] returns a symmetric array, whatever
    its argument. *)
Theorem t_function_symmetric (x : matrix) : symmetric (t_function x None).
Proof. apply symmetric_t_function. Qed.

(** X5: a pass of the loop, and so a finished run, keeps [ppi] and the
    coexpression array symmetric. *)
Theorem loop_keeps_symmetry (exp : float → float) (fuel nt ng : nat) (s : locals) :
  symmetric (ppi_matrix s) → symmetric (correlation_matrix s) →
  (symmetric (ppi_matrix (iteration exp nt ng s)) ∧
   symmetric (correlation_matrix (iteration exp nt ng s))) ∧
  (∀ s', while_loop exp fuel nt ng s = Some s' →
     symmetric (ppi_matrix s') ∧ symmetric (correlation_matrix s')).
Proof.
  intros Hp Hc. split.
  - by apply iteration_symmetric.
  - intros s'. by apply while_loop_symmetric.
Qed.

Lemma loop_keeps_symmetry_witness :
  (symmetric (ppi_matrix (iteration exp_series 2 2 ex_locals)) ∧
   symmetric (correlation_matrix (iteration exp_series 2 2 ex_locals))) ∧
  (∀ s', while_loop exp_series 3 2 2 ex_locals = Some s' →
     symmetric (ppi_matrix s') ∧ symmetric (correlation_matrix s')).
Proof.
  apply (loop_keeps_symmetry exp_series 3 2 2 ex_locals).
  - intros [|[|i]] [|[|j]]; reflexivity.
  - intros [|[|i]] [|[|j]]; reflexivity.
Defined.

(** X6: [_normalize_network] returns an array of the shape of its
    argument, whatever the argument; it maps a symmetric square array to a
    symmetric array, and any square array whose column standardization has
    no NaN to a symmetric array ([colZ] plus its transpose). *)
Theorem normalize_keeps_symmetry (r c : nat) (x : matrix) :
  shaped r c x →
  shaped r c (_normalize_network x) ∧
  (r = c → symmetric x → symmetric (_normalize_network x)) ∧
  (r = c → Np.any (Np.isnan (norm_col x)) = false →
   symmetric (_normalize_network x)).
Proof.
  intros Hs. split_and!.
  - destruct (decide (0 < r)) as [Hr|Hr]; [by apply shaped_normalize|].
    destruct Hs as [Hl _]. destruct x; [|simpl in Hl; lia].
    split; [simpl; lia|constructor].
  - intros <- Hx. by apply (symmetric_normalize r).
  - intros <- Hn. by apply (symmetric_normalize_no_nan r).
Qed.

Lemma normalize_keeps_symmetry_witness :
  let x : matrix := [[1; 2; 4]; [3; 1; 0]]%float in
  let y : matrix := [[1; 2]; [2; 5]]%float in
  let z : matrix := [[1; 2; 4]; [3; 1; 0]; [0; 5; 2]]%float in
  shaped 2 3 (_normalize_network x) ∧
  (shaped 2 2 (_normalize_network y) ∧ symmetric (_normalize_network y)) ∧
  (shaped 3 3 (_normalize_network z) ∧ symmetric (_normalize_network z)).
Proof.
  intros x y z.
  assert (shaped 2 3 x) as Hx by (split; [reflexivity|repeat constructor]).
  assert (shaped 2 2 y) as Hy by (split; [reflexivity|repeat constructor]).
  assert (shaped 3 3 z) as Hz by (split; [reflexivity|repeat constructor]).
  split; [exact (proj1 (normalize_keeps_symmetry 2 3 x Hx))|]. split.
  - destruct (normalize_keeps_symmetry 2 2 y Hy) as (Hs & Hsym & _).
    split; [exact Hs|]. apply Hsym; [reflexivity|].
    intros [|[|i]] [|[|j]]; reflexivity.
  - destruct (normalize_keeps_symmetry 3 3 z Hz) as (Hs & _ & Hsym).
    split; [exact Hs|]. apply Hsym; [reflexivity|].
    vm_compute. reflexivity.
Defined.

(** ** NaN, the diagonal and the cleaning *)

Lemma foldl_add_nan (v : fvec) : foldl PrimFloat.add nan v = nan.
Proof.
  induction v as [|a v IH]; simpl; [done|]. by rewrite IEEE.add_nan_l.
Qed.

Lemma sum_nan (v : fvec) : nan ∈ v → Np.sum v = nan.
Proof.
  unfold Np.sum. generalize 0%float.
  induction v as [|a v IH]; intros acc Hin.
  - by apply elem_of_nil in Hin.
  - simpl. apply elem_of_cons in Hin as [<- | Hin].
    + by rewrite IEEE.add_nan_r, foldl_add_nan.
    + by apply IH.
Qed.

Lemma mean_nan (v : fvec) : nan ∈ v → Np.mean v = nan.
Proof. intros H. unfold Np.mean. by rewrite sum_nan, IEEE.div_nan_l. Qed.

Lemma elem_of_flatten (x : matrix) i j a :
  entry x i j = Some a → a ∈ Np.flatten x.
Proof.
  intros (row & Hrow & Ha)%entry_Some. unfold Np.flatten.
  apply list_elem_of_lookup_2 in Ha. revert i Hrow.
  induction x as [|r x IH]; intros i Hrow; [done|]. simpl.
  apply elem_of_app. destruct i as [|i]; simpl in Hrow.
  - left. by injection Hrow as ->.
  - right. by eapply IH.
Qed.

Section nan_stops.
Variable exp : float → float.

Lemma hamming_nan nt ng (s : locals) i j w :
  entry (motif_matrix s) i j = Some nan → entry (W_of s) i j = Some w →
  hamming (iteration exp nt ng s) = nan.
Proof.
  intros Hm Hw. rewrite iteration_hamming. apply mean_nan.
  apply (elem_of_flatten _ i j). unfold Np.map1.
  rewrite entry_fmap, entry_map2, Hm, Hw. simpl.
  by rewrite IEEE.sub_nan_l.
Qed.

End nan_stops.


Section more.
Variable exp : float → float.

(** X7: a NaN in the motif array ends the loop: after the pass [hamming] is
    NaN, the NaN is still in the motif array, [ppi] and the coexpression
    array are not updated, and the loop returns. *)
Theorem nan_in_motif_stops_loop (T G nt ng fuel : nat) (s : locals) (i j : nat) :
  0 < T → 0 < G →
  shaped T T (ppi_matrix s) → shaped T G (motif_matrix s) →
  shaped G G (correlation_matrix s) →
  entry (motif_matrix s) i j = Some nan →
  hamming (iteration exp nt ng s) = nan ∧
  entry (motif_matrix (iteration exp nt ng s)) i j = Some nan ∧
  ppi_matrix (iteration exp nt ng s) = ppi_matrix s ∧
  correlation_matrix (iteration exp nt ng s) = correlation_matrix s ∧
  ((threshold <? hamming s)%float = true →
   while_loop exp (S fuel) nt ng s = Some (iteration exp nt ng s)).
Proof.
  intros HT HG Hp Hm Hc Hnan.
  destruct (entry_shaped_Some _ _ _ _ _ _ Hm Hnan) as [Hi Hj].
  assert (well_shaped T G s) as Hs by done.
  destruct (entry_lt _ _ _ _ _ (shaped_W_of T G HT HG s Hs) Hi Hj) as [w Hw].
  pose proof (hamming_nan exp nt ng s i j w Hnan Hw) as Hh.
  assert ((threshold <? hamming (iteration exp nt ng s))%float = false) as Ht
    by (rewrite Hh; apply IEEE.ltb_nan_r).
  destruct (iteration_last_pass exp nt ng s Ht) as [Hc' Hp'].
  split_and!; try done.
  - rewrite iteration_motif_matrix, damped_entry, Hnan, Hw. simpl.
    by rewrite ?IEEE.mul_nan_r, IEEE.add_nan_l.
  - intros Hgo. rewrite while_loop_unfold, Hgo.
    by rewrite while_loop_unfold, Ht.
Qed.

(** X8: the result of [update_diagonal] does not depend on the diagonal
    of its argument. *)
Theorem update_diagonal_ignores_diagonal (x : matrix) (v : float) (num : nat)
    (alpha : float) (step : nat) :
  update_diagonal exp (Np.fill_diagonal x v) num alpha step =
  update_diagonal exp x num alpha step.
Proof.
  unfold update_diagonal.
  assert (Np.fill_diagonal (Np.fill_diagonal x v) nan = Np.fill_diagonal x nan)
    as ->; [|done].
  apply list_eq. intros i. rewrite !fill_diagonal_lookup.
  destruct (x !! i); simpl; [|done]. by rewrite list_insert_insert_eq.
Qed.

End more.

Lemma nan_to_num1_not_nan (a : float) : is_nan (Np.nan_to_num1 a) = false.
Proof.
  unfold Np.nan_to_num1. destruct (is_nan a) eqn:Ha; [done|].
  destruct (a =? infinity)%float; [done|].
  by destruct (a =? neg_infinity)%float.
Qed.

(** X9: after the cleaning of lines 78-80 the coexpression array has no
    NaN, and cleaning it again changes nothing. *)
Theorem clean_correlation_no_nan (x : matrix) :
  Np.any (Np.isnan (clean_correlation x)) = false ∧
  clean_correlation (clean_correlation x) = clean_correlation x.
Proof.
  assert (Np.any (Np.isnan (clean_correlation x)) = false) as H.
  { unfold clean_correlation. destruct (Np.any (Np.isnan x)) eqn:E; [|done].
    apply any_isnan_false. intros i j a. unfold Np.nan_to_num, Np.map1.
    rewrite entry_fmap.
    destruct (entry _ i j) as [b|]; simpl; [|done]. intros [= <-].
    apply nan_to_num1_not_nan. }
  split; [done|]. unfold clean_correlation at 1. by rewrite H.
Qed.

Lemma col_transpose m k (x : matrix) j rj :
  shaped m k x → 0 < m → x !! j = Some rj → Np.col j (Np.transpose x) = rj.
Proof.
  intros Hs Hm Hj. destruct (shaped_lookup _ _ _ _ _ Hs Hj) as [Hjm Hlen].
  pose proof (shaped_transpose _ _ _ Hs Hm) as [Hl Ht].
  apply list_eq. intros l.
  rewrite (col_lookup _ m) by done.
  rewrite (entry_transpose m k) by done. unfold entry. by rewrite Hj.
Qed.

(** X10: the one-argument form is the two-argument form at the transpose,
    as the comments of lines 234 and 240 say. *)
Theorem t_function_of_transpose (m k : nat) (x : matrix) :
  shaped m k x → 0 < m → 0 < k →
  t_function x (Some (Np.transpose x)) = t_function x None.
Proof.
  intros Hs Hm Hk.
  pose proof (shaped_transpose _ _ _ Hs Hm) as Ht.
  apply (matrix_ext m m).
  - by apply (shaped_t_function_2 m k m).
  - by apply (shaped_t_function_1 m k).
  - intros i j.
    destruct (x !! i) as [ri|] eqn:Hi.
    2:{ rewrite t_function_1_entry_None by auto.
        unfold t_function, Np.map1. rewrite entry_map2, entry_dot. by rewrite Hi. }
    destruct (x !! j) as [rj|] eqn:Hj.
    + apply lookup_lt_Some in Hj as Hjm. rewrite (proj1 Hs) in Hjm.
      rewrite (t_function_2_entry k m _ _ _ _ ri) by done.
      rewrite (t_function_1_entry _ _ _ _ _ Hi Hj).
      by rewrite (col_transpose m k x j rj).
    + rewrite t_function_1_entry_None by auto.
      apply lookup_ge_None in Hj. rewrite (proj1 Hs) in Hj.
      destruct (entry (t_function x (Some (Np.transpose x))) i j) as [a|] eqn:E;
        [|done].
      apply (entry_shaped_Some m m) in E; [lia|].
      by apply (shaped_t_function_2 m k m).
Qed.

Lemma nan_in_motif_stops_loop_witness :
  let s := initial (self_correlation_matrix ex_nan_self)
                   (self_motif_matrix ex_nan_self)
                   (self_ppi_matrix ex_nan_self) in
  hamming (iteration exp_series 2 2 s) = nan ∧
  entry (motif_matrix (iteration exp_series 2 2 s)) 0 0 = Some nan ∧
  ppi_matrix (iteration exp_series 2 2 s) = ppi_matrix s ∧
  correlation_matrix (iteration exp_series 2 2 s) = correlation_matrix s ∧
  ((threshold <? hamming s)%float = true →
   while_loop exp_series 1 2 2 s = Some (iteration exp_series 2 2 s)).
Proof.
  intros s. apply (nan_in_motif_stops_loop exp_series 2 2 2 2 0 s 0 0); try lia.
  - split; [reflexivity|]. repeat constructor.
  - split; [reflexivity|]. repeat constructor.
  - split; [reflexivity|]. repeat constructor.
  - reflexivity.
Defined.

Lemma t_function_of_transpose_witness :
  let x : matrix := [[1; 0; 2]; [1; 1; 0]]%float in
  t_function x (Some (Np.transpose x)) = t_function x None.
Proof.
  intros x. apply (t_function_of_transpose 2 3 x); try lia.
  split; [reflexivity|]. repeat constructor.
Defined.

(** ** Network construction *)

(** *** The index maps *)

Lemma name2idx_snoc (names : list string) (x : string) :
  name2idx (names ++ [x]) = <[x := length names]> (name2idx names).
Proof.
  unfold name2idx. rewrite imap_app, foldl_app. simpl.
  by rewrite Nat.add_0_r.
Qed.

Lemma name2idx_None (names : list string) (x : string) :
  x ∉ names → name2idx names !! x = None.
Proof.
  induction names as [|y names IH] using rev_ind; intros Hx; [done|].
  rewrite name2idx_snoc. apply not_elem_of_app in Hx as [Hx Hy].
  apply not_elem_of_cons in Hy as [Hy _].
  rewrite lookup_insert_ne by done. by apply IH.
Qed.

Lemma name2idx_last (names : list string) (x : string) (i : nat) :
  names !! i = Some x → (∀ j, i < j → names !! j ≠ Some x) →
  name2idx names !! x = Some i.
Proof.
  revert i. induction names as [|y names IH] using rev_ind; intros i Hi Hlast;
    [done|].
  rewrite name2idx_snoc.
  destruct (decide (i = length names)) as [->|Hne].
  - rewrite lookup_app_r, Nat.sub_diag in Hi by done. injection Hi as ->.
    by rewrite lookup_insert_eq.
  - assert (i < length names) as Hlt.
    { apply lookup_lt_Some in Hi. rewrite length_app in Hi. simpl in Hi. lia. }
    rewrite lookup_app_l in Hi by done.
    assert (y ≠ x) as Hyx.
    { intros ->. apply (Hlast (length names)); [done|].
      by rewrite lookup_app_r, Nat.sub_diag. }
    rewrite lookup_insert_ne by done. apply IH; [done|].
    intros j Hj Hx. apply (Hlast j Hj).
    apply lookup_lt_Some in Hx as ?. by rewrite lookup_app_l.
Qed.

Lemma get0_lt (names : list string) (x : string) :
  0 < length names → get0 (name2idx names) x < length names.
Proof.
  intros Hn. unfold get0.
  destruct (name2idx names !! x) as [i|] eqn:E; simpl; [|done].
  clear Hn. revert i E.
  induction names as [|y names IH] using rev_ind; intros i; [done|].
  rewrite name2idx_snoc, length_app. simpl.
  destruct (decide (y = x)) as [->|Hne].
  - rewrite lookup_insert_eq. intros [= <-]. lia.
  - rewrite lookup_insert_ne by done. intros E. apply IH in E. lia.
Qed.

(** X11: the index of a name through the dictionary and [.get(x, 0)]: a
    name that is not in the list gets index 0, a name in the list gets the
    position of its last occurrence, which is its position when the names
    are distinct. *)
Theorem get0_name2idx (names : list string) :
  (∀ x, x ∉ names → get0 (name2idx names) x = 0) ∧
  (∀ i x, names !! i = Some x → (∀ j, i < j → names !! j ≠ Some x) →
          get0 (name2idx names) x = i) ∧
  (NoDup names → ∀ i x, names !! i = Some x → get0 (name2idx names) x = i).
Proof.
  split_and!.
  - intros x Hx. unfold get0. by rewrite name2idx_None.
  - intros i x Hi Hlast. unfold get0. by rewrite (name2idx_last _ _ i).
  - intros Hnd i x Hi. unfold get0. rewrite (name2idx_last _ _ i); [done..|].
    intros j Hj Hx. pose proof (NoDup_lookup _ _ _ _ Hnd Hi Hx). lia.
Qed.

(** *** Assignments through flat indices *)

Lemma set_entry_length (x : matrix) i j w :
  length (Np.set_entry x i j w) = length x.
Proof. unfold Np.set_entry. apply length_alter. Qed.

Lemma shaped_set_entry r c (x : matrix) i j w :
  shaped r c x → shaped r c (Np.set_entry x i j w).
Proof.
  intros [Hl Hx]. split; [by rewrite set_entry_length|].
  unfold Np.set_entry. apply Forall_alter; [done|].
  intros row _ Hrow. by rewrite length_insert.
Qed.

Lemma shaped_assign_flat r c (x : matrix) upd :
  shaped r c x → shaped r c (Np.assign_flat x upd).
Proof.
  unfold Np.assign_flat. revert x.
  induction upd as [|u upd IH]; intros x Hx; simpl; [done|].
  by apply IH, shaped_set_entry.
Qed.

Lemma entry_set_entry (x : matrix) i j w i' j' :
  entry (Np.set_entry x i j w) i' j' =
  if decide ((i, j) = (i', j')) then (λ _, w) <$> entry x i' j'
  else entry x i' j'.
Proof.
  unfold entry, Np.set_entry. destruct (decide (i = i')) as [<-|Hi].
  - rewrite list_lookup_alter_eq. destruct (x !! i) as [row|]; simpl.
    + destruct (decide (j = j')) as [<-|Hj].
      * rewrite decide_True by done.
        destruct (row !! j) as [a|] eqn:E; simpl.
        -- apply list_lookup_insert_eq. by eapply lookup_lt_Some.
        -- apply lookup_ge_None. rewrite length_insert. by apply lookup_ge_None.
      * rewrite decide_False by congruence. by apply list_lookup_insert_ne.
    + by case_decide.
  - rewrite list_lookup_alter_ne by done. rewrite decide_False by congruence. done.
Qed.

Lemma assign_flat_snoc (x : matrix) upd u :
  Np.assign_flat x (upd ++ [u]) =
  Np.set_entry (Np.assign_flat x upd) u.1.1 u.1.2 u.2.
Proof. unfold Np.assign_flat. by rewrite foldl_app. Qed.

Lemma assign_flat_app (x : matrix) upd upd' :
  Np.assign_flat x (upd ++ upd') = Np.assign_flat (Np.assign_flat x upd) upd'.
Proof. unfold Np.assign_flat. by rewrite foldl_app. Qed.

Lemma assign_flat_untouched (x : matrix) upd i j :
  (∀ u, u ∈ upd → cell_of u ≠ (i, j)) →
  entry (Np.assign_flat x upd) i j = entry x i j.
Proof.
  revert x. induction upd as [|u upd IH]; intros x Hu; [done|].
  change (Np.assign_flat x (u :: upd))
    with (Np.assign_flat (Np.set_entry x u.1.1 u.1.2 u.2) upd).
  rewrite IH by (intros v Hv; apply Hu; by right).
  rewrite entry_set_entry, decide_False; [done|].
  apply (Hu u). by left.
Qed.

Lemma assign_flat_last (x : matrix) upd1 upd2 i j w :
  (∀ u, u ∈ upd2 → cell_of u ≠ (i, j)) →
  entry (Np.assign_flat x (upd1 ++ (i, j, w) :: upd2)) i j =
  (λ _, w) <$> entry x i j.
Proof.
  intros Hu. rewrite assign_flat_app.
  change (Np.assign_flat ?y ((i, j, w) :: upd2))
    with (Np.assign_flat (Np.set_entry y i j w) upd2).
  rewrite assign_flat_untouched by done.
  rewrite entry_set_entry, decide_True by done.
  assert (∀ y, is_Some (entry (Np.assign_flat y upd1) i j) ↔ is_Some (entry y i j))
    as Hsome.
  { clear. induction upd1 as [|u upd1 IH] using rev_ind; intros y; [done|].
    rewrite assign_flat_snoc, entry_set_entry. case_decide; [|done].
    rewrite <- IH. by rewrite fmap_is_Some. }
  specialize (Hsome x).
  destruct (entry (Np.assign_flat x upd1) i j), (entry x i j); simpl; try done.
  - destruct Hsome as [H _]. by destruct H.
  - destruct Hsome as [_ H]. by destruct H.
Qed.

(** Either no update writes the cell, or there is a last one that does. *)
Lemma last_update (upd : list (nat * nat * float)) i j :
  (∀ u, u ∈ upd → cell_of u ≠ (i, j)) ∨
  ∃ upd1 w upd2, upd = upd1 ++ (i, j, w) :: upd2 ∧
                 ∀ u, u ∈ upd2 → cell_of u ≠ (i, j).
Proof.
  induction upd as [|u upd IH].
  - left. intros u Hu. by apply elem_of_nil in Hu.
  - destruct IH as [IH|(upd1 & w & upd2 & -> & Hu)].
    + destruct (decide (cell_of u = (i, j))) as [He|Hne].
      * right. exists [], u.2, upd. split; [|done].
        destruct u as [[a b] w]. unfold cell_of in He. simpl in *. congruence.
      * left. intros v Hv. apply elem_of_cons in Hv as [->|Hv]; [exact Hne|].
        by apply IH.
    + right. by exists (u :: upd1), w, upd2.
Qed.

Lemma entry_identity n i j :
  entry (Np.identity n) i j =
  if decide (i < n ∧ j < n)
  then Some (if decide (i = j) then 1%float else 0%float) else None.
Proof.
  unfold entry, Np.identity. rewrite list_lookup_fmap.
  destruct (decide (i < n)) as [Hi|Hi].
  - rewrite lookup_seq_lt by done. simpl. rewrite list_lookup_fmap.
    destruct (decide (j < n)) as [Hj|Hj].
    + rewrite lookup_seq_lt by done. simpl.
      destruct (decide (i < n ∧ j < n)); [done|lia].
    + rewrite lookup_seq_ge by lia. simpl.
      destruct (decide (i < n ∧ j < n)); [lia|done].
  - rewrite lookup_seq_ge by lia. simpl.
    destruct (decide (i < n ∧ j < n)); [lia|done].
Qed.

Lemma shaped_identity n : shaped n n (Np.identity n).
Proof.
  split; unfold Np.identity.
  - by rewrite length_fmap, length_seq.
  - apply Forall_fmap, Forall_forall. intros i _. simpl.
    by rewrite length_fmap, length_seq.
Qed.

Lemma shaped_zeros r c : shaped r c (Np.zeros r c).
Proof.
  split; unfold Np.zeros.
  - by rewrite length_replicate.
  - apply Forall_replicate. by rewrite length_replicate.
Qed.

Lemma entry_zeros r c i j :
  i < r → j < c → entry (Np.zeros r c) i j = Some 0%float.
Proof.
  intros Hi Hj. unfold entry, Np.zeros.
  rewrite lookup_replicate_2 by done. simpl. by rewrite lookup_replicate_2.
Qed.

(** X12: the motif array has one row per regulator and one column per
    target; a cell that no table row addresses is 0, and a cell that some
    row addresses holds the weight of the last such row. *)
Theorem create_motif_spec (tfs genes : list string) (motif_data : table) :
  let upd := triples (name2idx tfs) (name2idx genes) motif_data in
  shaped (length tfs) (length genes) (create_motif tfs genes motif_data) ∧
  (∀ i j, i < length tfs → j < length genes →
     (∀ u, u ∈ upd → cell_of u ≠ (i, j)) →
     entry (create_motif tfs genes motif_data) i j = Some 0%float) ∧
  (∀ i j w upd1 upd2, i < length tfs → j < length genes →
     upd = upd1 ++ (i, j, w) :: upd2 →
     (∀ u, u ∈ upd2 → cell_of u ≠ (i, j)) →
     entry (create_motif tfs genes motif_data) i j = Some w).
Proof.
  intros upd. unfold create_motif. fold upd. split_and!.
  - apply shaped_assign_flat, shaped_zeros.
  - intros i j Hi Hj Hu. rewrite assign_flat_untouched by done.
    by apply entry_zeros.
  - intros i j w upd1 upd2 Hi Hj -> Hu. rewrite assign_flat_last by done.
    by rewrite entry_zeros.
Qed.

Lemma elem_of_mirrored upd u :
  u ∈ mirrored upd ↔ ∃ v, v ∈ upd ∧ u = (v.1.2, v.1.1, v.2).
Proof.
  unfold mirrored. rewrite list_elem_of_fmap. split.
  - intros (v & -> & Hv). by exists v.
  - intros (v & Hv & ->). by exists v.
Qed.

Lemma symmetric_identity n : symmetric (Np.identity n).
Proof.
  intros i j. rewrite !entry_identity.
  destruct (decide (i < n ∧ j < n)), (decide (j < n ∧ i < n)); try lia; [|done].
  by destruct (decide (i = j)), (decide (j = i)); try lia.
Qed.

Lemma create_ppi_symmetric_aux n upd :
  consistent upd →
  symmetric (Np.assign_flat (Np.assign_flat (Np.identity n) upd) (mirrored upd)).
Proof.
  intros Hc. rewrite <- assign_flat_app. set (L := upd ++ mirrored upd).
  assert (∀ u, u ∈ L → ∃ v, v ∈ upd ∧ u.2 = v.2 ∧
            (cell_of u = cell_of v ∨ cell_of u = (v.1.2, v.1.1))) as HL.
  { intros u [Hu|Hu]%elem_of_app.
    - exists u. auto.
    - apply elem_of_mirrored in Hu as (v & Hv & ->). exists v. auto. }
  assert (∀ u, u ∈ L → (u.1.2, u.1.1, u.2) ∈ L) as Hmir.
  { intros u [Hu|Hu]%elem_of_app; apply elem_of_app.
    - right. apply elem_of_mirrored. by exists u.
    - left. apply elem_of_mirrored in Hu as (v & Hv & ->). simpl.
      by destruct v as [[??]?]. }
  assert (∀ a b w l1 l2, L = l1 ++ (a, b, w) :: l2 →
            ¬ (∀ u, u ∈ L → cell_of u ≠ (b, a))) as Hhit.
  { intros a b w l1 l2 HLeq Hno.
    assert ((a, b, w) ∈ L) as Hin
      by (rewrite HLeq; apply elem_of_app; right; by left).
    apply Hmir in Hin. by apply Hno in Hin. }
  assert (∀ a b w w' l1 l2 l1' l2',
            L = l1 ++ (a, b, w) :: l2 → L = l1' ++ (b, a, w') :: l2' → w = w')
    as Hsame.
  { intros a b w w' l1 l2 l1' l2' H1 H2.
    assert ((a, b, w) ∈ L) as Hin
      by (rewrite H1; apply elem_of_app; right; by left).
    assert ((b, a, w') ∈ L) as Hin'
      by (rewrite H2; apply elem_of_app; right; by left).
    apply HL in Hin as (v & Hv & Hw & Hcell).
    apply HL in Hin' as (v' & Hv' & Hw' & Hcell').
    simpl in *. rewrite Hw, Hw'. apply (Hc v v' Hv Hv').
    unfold cell_of in *. simpl in *.
    destruct v as [[??]?], v' as [[??]?]. simpl in *.
    destruct Hcell as [[= <- <-]|[= <- <-]], Hcell' as [[= <- <-]|[= <- <-]];
      auto. }
  intros a b.
  destruct (last_update L a b) as [Hab|(l1 & w & l2 & HLeq & Hab)],
           (last_update L b a) as [Hba|(l1' & w' & l2' & HLeq' & Hba)].
  - rewrite !assign_flat_untouched by done. apply symmetric_identity.
  - exfalso. by eapply Hhit.
  - exfalso. by eapply Hhit.
  - rewrite HLeq at 1. rewrite HLeq'.
    rewrite !assign_flat_last by done.
    rewrite (Hsame _ _ _ _ _ _ _ _ HLeq HLeq'), (symmetric_identity n a b).
    done.
Qed.

(** X14: the PPI array is square; without a PPI table it is the identity
    (1 on the diagonal, 0 elsewhere); with a table in which the rows for one
    unordered pair carry one weight it is symmetric. *)
Theorem create_ppi_symmetric (tfs : list string) (ppi_data : table) :
  consistent (triples (name2idx tfs) (name2idx tfs) ppi_data) →
  symmetric (create_ppi tfs (Some ppi_data)) ∧
  (∀ i j, i < length tfs → j < length tfs →
     entry (create_ppi tfs None) i j =
     Some (if decide (i = j) then 1%float else 0%float)) ∧
  (∀ d, shaped (length tfs) (length tfs) (create_ppi tfs d)).
Proof.
  intros Hc. split_and!.
  - by apply create_ppi_symmetric_aux.
  - intros i j Hi Hj. simpl. rewrite entry_identity.
    by rewrite decide_True.
  - intros [data|]; simpl.
    + by do 2 apply shaped_assign_flat; apply shaped_identity.
    + apply shaped_identity.
Qed.

Lemma create_ppi_symmetric_witness :
  let data : list (string * string * float) :=
    [("A", "C", 0.5%float); ("C", "A", 0.5%float); ("B", "C", 0.25%float)] in
  symmetric (create_ppi ["A"; "B"; "C"] (Some data)) ∧
  (∀ i j, i < length ["A"; "B"; "C"] → j < length ["A"; "B"; "C"] →
     entry (create_ppi ["A"; "B"; "C"] None) i j =
     Some (if decide (i = j) then 1%float else 0%float)) ∧
  (∀ d, shaped (length ["A"; "B"; "C"]) (length ["A"; "B"; "C"])
          (create_ppi ["A"; "B"; "C"] d)).
Proof.
  intros data. apply (create_ppi_symmetric ["A"; "B"; "C"] data).
  change (triples (name2idx ["A"; "B"; "C"]) (name2idx ["A"; "B"; "C"]) data)
    with [(0, 2, 0.5%float); (2, 0, 0.5%float); (1, 2, 0.25%float)].
  intros u v Hu Hv Hcell.
  apply list_elem_of_In in Hu, Hv. simpl in Hu, Hv.
  destruct Hu as [<-|[<-|[<-|[]]]], Hv as [<-|[<-|[<-|[]]]];
    try reflexivity; exfalso; destruct Hcell as [Hcell|Hcell]; discriminate Hcell.
Defined.

(** ** The correlation-only edge list, and the loop as an iteration *)

Lemma DataFrame3_lookup tfs genes forces (es : list (string * string * float))
    p t g f :
  DataFrame3 tfs genes forces = Some es →
  tfs !! p = Some t → genes !! p = Some g → forces !! p = Some f →
  es !! p = Some (t, g, f).
Proof.
  unfold DataFrame3. case_decide; [|done]. intros [= <-] Ht Hg Hf.
  rewrite lookup_zip_with.
  rewrite (proj2 (lookup_zip_with_Some pair tfs genes p (t, g))) by eauto.
  simpl. by rewrite Hf.
Qed.

(** X15: without a motif prior, the edge list of an n by n network has
    n * n rows; row [a * n + b] holds the name [b] as regulator, the name [a]
    as target, and the entry (b, a) of the network. *)
Theorem pearson_results_edges (gene_names : list string) (panda_network : matrix)
    (n : nat) :
  length gene_names = n → 0 < n → shaped n n panda_network →
  ∃ es : list (string * string * float),
    __pearson_results_data_frame gene_names panda_network = Some es ∧
    length es = n * n ∧
    (∀ a b ta tb f,
       gene_names !! a = Some ta → gene_names !! b = Some tb →
       entry panda_network b a = Some f →
       es !! (a * n + b) = Some (tb, ta, f)).
Proof.
  intros Hn Hpos Hx. unfold __pearson_results_data_frame. rewrite Hn.
  change (Np.flatten (Np.tile gene_names n)) with (Np.tile_flat gene_names n).
  change (Np.flatten (Np.T (Np.tile gene_names n)))
    with (Np.flatten_F (replicate n gene_names)).
  change (Np.flatten (Np.transpose panda_network))
    with (Np.flatten_F panda_network).
  assert (shaped n n (replicate n gene_names)) as Hrep by by apply shaped_replicate.
  destruct (DataFrame3 _ _ _) as [es|] eqn:E.
  - exists es. split_and!; [done| |].
    + unfold DataFrame3 in E. case_decide as Hlen; [|done]. injection E as <-.
      destruct Hlen as [H1 H2].
      rewrite !length_zip_with, H1, H2, tile_flat_length. lia.
    + intros a b ta tb f Ha Hb Hf.
      apply lookup_lt_Some in Ha as Hla. apply lookup_lt_Some in Hb as Hlb.
      apply (DataFrame3_lookup _ _ _ _ _ _ _ _ E).
      * rewrite (tile_flat_lookup _ _ n); [done|done|lia..].
      * rewrite (flatten_F_lookup n n) by (done || lia).
        unfold entry. rewrite lookup_replicate_2 by lia. done.
      * rewrite (flatten_F_lookup n n) by (done || lia). done.
  - unfold DataFrame3 in E. rewrite decide_True in E; [done|].
    rewrite tile_flat_length, !(flatten_F_length n n) by done. lia.
Qed.

Lemma pearson_results_edges_witness :
  let names := ["a"; "b"] in
  let x : matrix := [[1; 2]; [3; 4]]%float in
  ∃ es : list (string * string * float),
    __pearson_results_data_frame names x = Some es ∧
    length es = 2 * 2 ∧
    (∀ a b ta tb f,
       names !! a = Some ta → names !! b = Some tb →
       entry x b a = Some f →
       es !! (a * 2 + b) = Some (tb, ta, f)).
Proof.
  intros names x. apply (pearson_results_edges names x 2).
  - reflexivity.
  - lia.
  - split; [reflexivity|]. repeat constructor.
Defined.

(** *** The loop as an iteration *)

Section iterates.
Variable exp : float → float.
Variables nt ng : nat.

Local Abbreviation test s := (threshold <? hamming s)%float.
Local Abbreviation iter n s := (Nat.iter n (iteration exp nt ng) s).

Lemma iter_succ_r n (s : locals) :
  iter (S n) s = iter n (iteration exp nt ng s).
Proof. apply Nat.iter_succ_r. Qed.

Lemma iter_step n (s : locals) : step (iter n s) = step s + n.
Proof.
  induction n as [|n IH]; simpl; [lia|]. rewrite iteration_step, IH. lia.
Qed.

Lemma while_loop_iterates_aux (fuel : nat) (s s' : locals) :
  while_loop exp fuel nt ng s = Some s' ↔
  ∃ n, n ≤ fuel ∧ s' = iter n s ∧ test s' = false ∧
       ∀ k, k < n → test (iter k s) = true.
Proof.
  revert s. induction fuel as [|fuel IH]; intros s.
  - rewrite while_loop_unfold. destruct (test s) eqn:Ht; split.
    + done.
    + intros (n & Hn & -> & Hf & _). assert (n = 0) as -> by lia.
      simpl in Hf. congruence.
    + intros [= <-]. exists 0. split_and!; [done..|]. intros k Hk. lia.
    + intros (n & Hn & -> & _). assert (n = 0) as -> by lia. done.
  - rewrite while_loop_unfold. destruct (test s) eqn:Ht.
    + rewrite IH. split.
      * intros (n & Hn & -> & Hf & Hk). exists (S n).
        rewrite iter_succ_r. split_and!; [lia|done..|].
        intros [|k] Hlt; [done|]. rewrite iter_succ_r. apply Hk. lia.
      * intros (n & Hn & -> & Hf & Hk). destruct n as [|n].
        { simpl in Hf. congruence. }
        exists n. rewrite iter_succ_r in Hf. rewrite iter_succ_r.
        split_and!; [lia|done..|].
        intros k Hlt. rewrite <- iter_succ_r. apply Hk. lia.
    + split.
      * intros [= <-]. exists 0. split_and!; [lia|done..|]. intros k Hk. lia.
      * intros (n & Hn & -> & Hf & Hk). destruct n as [|n]; [done|].
        specialize (Hk 0 ltac:(lia)). simpl in Hk. congruence.
Qed.

(** X16: the loop returns [s'] exactly when [s'] is the first iterate of the
    loop body, within the fuel, on which the test [hamming > 0.001] fails;
    [step] has then grown by the number of passes. *)
Theorem while_loop_iterates (fuel : nat) (s s' : locals) :
  while_loop exp fuel nt ng s = Some s' ↔
  ∃ n, n ≤ fuel ∧ s' = Nat.iter n (iteration exp nt ng) s ∧
       step s' = step s + n ∧
       (threshold <? hamming s')%float = false ∧
       ∀ k, k < n →
         (threshold <? hamming (Nat.iter k (iteration exp nt ng) s))%float = true.
Proof.
  rewrite while_loop_iterates_aux. split.
  - intros (n & Hn & -> & Hf & Hk). exists n. split_and!; try done.
    apply iter_step.
  - intros (n & Hn & -> & _ & Hf & Hk). by exists n.
Qed.

End iterates.

(** ** Removing what is missing *)

#[local] Instance str_le_total : Total Np.str_le.
Proof. intros a b. apply String.leb_total. Qed.

Lemma unique_Permutation (l : list string) : Np.unique l ≡ₚ remove_dups l.
Proof. apply merge_sort_Permutation. Qed.

Lemma elem_of_unique (l : list string) x : x ∈ Np.unique l ↔ x ∈ l.
Proof. by rewrite unique_Permutation, elem_of_remove_dups. Qed.

Lemma NoDup_unique (l : list string) : NoDup (Np.unique l).
Proof. rewrite unique_Permutation. apply NoDup_remove_dups. Qed.

Lemma Sorted_unique (l : list string) : Sorted Np.str_le (Np.unique l).
Proof. apply Sorted_merge_sort, _. Qed.

Lemma isin_true x l : isin x l = true ↔ x ∈ l.
Proof. unfold isin. apply bool_decide_eq_true. Qed.

Lemma get0_name2idx_lookup (names : list string) (x : string) :
  x ∈ names → names !! get0 (name2idx names) x = Some x.
Proof.
  unfold get0. induction names as [|y names IH] using rev_ind; intros Hx.
  - by apply elem_of_nil in Hx.
  - rewrite name2idx_snoc. destruct (decide (y = x)) as [->|Hne].
    + rewrite lookup_insert_eq. simpl.
      by rewrite lookup_app_r, Nat.sub_diag.
    + rewrite lookup_insert_ne by done.
      apply elem_of_app in Hx as [Hx|Hx].
      * specialize (IH Hx). apply lookup_lt_Some in IH as Hlt.
        by rewrite lookup_app_l.
      * apply list_elem_of_singleton in Hx. congruence.
Qed.

(** X13: a motif table row whose target is not among the gene names (a
    gene of the motif file that the expression file does not have) is not
    dropped: as the last row of the table, its weight is written in column
    0, the column of the first gene, in the row of its regulator.  The
    regulators are [sorted(set(motif_data[0]))], as in the constructor. *)
Theorem unknown_gene_is_written_in_column_0 (genes : list string)
    (motif_data : list (string * string * float)) (t g : string) (w : float) :
  let md := motif_data ++ [(t, g, w)] in
  let tfs := Np.unique ((λ r, r.1.1) <$> md) in
  0 < length genes → g ∉ genes →
  ∃ i, tfs !! i = Some t ∧ entry (create_motif tfs genes md) i 0 = Some w.
Proof.
  intros md tfs HG Hg.
  assert (t ∈ tfs) as Ht.
  { apply elem_of_unique. unfold md. rewrite fmap_app. apply elem_of_app.
    right. by left. }
  exists (get0 (name2idx tfs) t).
  pose proof (get0_name2idx_lookup tfs t Ht) as Hi. split; [done|].
  unfold create_motif, triples, md. rewrite fmap_app. simpl.
  assert (get0 (name2idx genes) g = 0) as ->
    by (unfold get0; by rewrite name2idx_None).
  rewrite assign_flat_last.
  - rewrite entry_zeros; [done| |done]. by eapply lookup_lt_Some.
  - intros u Hu. by apply elem_of_nil in Hu.
Qed.

Lemma unknown_gene_is_written_in_column_0_witness :
  let md : list (string * string * float) :=
    [("A", "g1", 1%float); ("B", "g2", 2%float)] ++ [("B", "zz", 7%float)] in
  let tfs := Np.unique ((λ r, r.1.1) <$> md) in
  ∃ i, tfs !! i = Some "B" ∧
       entry (create_motif tfs ["g1"; "g2"] md) i 0 = Some 7%float.
Proof.
  apply (unknown_gene_is_written_in_column_0 ["g1"; "g2"]
           [("A", "g1", 1%float); ("B", "g2", 2%float)] "B" "zz" 7%float).
  - simpl. lia.
  - intros H. apply list_elem_of_In in H. simpl in H.
    destruct H as [H|[H|[]]]; discriminate H.
Defined.

(** X17: what [__remove_missing] keeps: the motif rows whose target is a
    gene name, in their order; the regulators of these rows, sorted and
    without repetition; the PPI rows whose two regulators are among them;
    and, when there is expression data, its rows whose gene occurs in the
    motif table, the gene names being their index. *)
Theorem remove_missing_spec (o : loaded) :
  let o' := __remove_missing o in
  motif_data o' `sublist_of` motif_data o ∧
  (∀ r, r ∈ motif_data o' ↔
        r ∈ motif_data o ∧ r.1.2 ∈ loaded_gene_names o') ∧
  (∀ t, t ∈ loaded_unique_tfs o' ↔ ∃ r, r ∈ motif_data o' ∧ r.1.1 = t) ∧
  NoDup (loaded_unique_tfs o') ∧ Sorted Np.str_le (loaded_unique_tfs o') ∧
  match ppi_data o with
  | Some pd =>
      ∃ pd' : list (string * string * float), ppi_data o' = Some pd' ∧
        ∀ r, r ∈ pd' ↔ r ∈ pd ∧ r.1.1 ∈ loaded_unique_tfs o'
                     ∧ r.1.2 ∈ loaded_unique_tfs o'
  | None => ppi_data o' = None
  end ∧
  match expression_data o with
  | Some ed =>
      ∃ ed' : list (string * fvec), expression_data o' = Some ed' ∧
        loaded_gene_names o' = fst <$> ed' ∧
        ∀ r, r ∈ ed' ↔ r ∈ ed ∧ ∃ m, m ∈ motif_data o ∧ m.1.2 = r.1
  | None =>
      expression_data o' = None ∧ loaded_gene_names o' = loaded_gene_names o
  end.
Proof.
  intros o'. unfold o', __remove_missing.
  destruct o as [ed names md tfs pd]. simpl.
  set (eg := match ed with
             | Some ed0 => _
             | None => (None, names)
             end).
  destruct eg as [ed' names'] eqn:Heg. simpl. split_and!.
  - apply sublist_filter.
  - intros r. rewrite list_elem_of_filter, isin_true. tauto.
  - intros t. rewrite elem_of_unique, list_elem_of_fmap. split.
    + intros (r & -> & Hr). by exists r.
    + intros (r & Hr & <-). by exists r.
  - apply NoDup_unique.
  - apply Sorted_unique.
  - destruct pd as [pd|]; [|done]. eexists. split; [done|].
    intros r. rewrite !list_elem_of_filter, !isin_true. tauto.
  - unfold eg in Heg. destruct ed as [ed|]; injection Heg as <- <-.
    + eexists. split_and!; [done..|].
      intros r. rewrite list_elem_of_filter, isin_true, list_elem_of_fmap.
      split.
      * intros [(m & -> & Hm) Hr]. split; [done|]. by exists m.
      * intros [Hr (m & Hm & <-)]. split; [|done]. by exists m.
    + done.
Qed.

Lemma remove_missing_members (o : loaded) :
  let o' := __remove_missing o in
  (∀ r, r ∈ motif_data o' →
     r.1.1 ∈ loaded_unique_tfs o' ∧ r.1.2 ∈ loaded_gene_names o') ∧
  (∀ pd r, ppi_data o' = Some pd → r ∈ pd →
     r.1.1 ∈ loaded_unique_tfs o' ∧ r.1.2 ∈ loaded_unique_tfs o').
Proof.
  intros o'. unfold o', __remove_missing.
  destruct o as [ed names md tfs pd]. simpl.
  destruct (match ed with Some _ => _ | None => _ end) as [ed' names']. simpl.
  split.
  - intros r Hr. split.
    + apply elem_of_unique, list_elem_of_fmap. by exists r.
    + apply list_elem_of_filter in Hr as [Hr _]. by apply isin_true.
  - intros pd' r Hpd Hr. destruct pd as [pd|]; [|done]. injection Hpd as <-.
    apply list_elem_of_filter in Hr as [H2 Hr].
    apply list_elem_of_filter in Hr as [H1 _].
    by rewrite !isin_true in *.
Qed.

(** X18: after [__remove_missing], every name of the motif table and of
    the PPI table is a key of its index map: the index found for it is a
    position of that very name, so that [.get(x, 0)] never falls back on its
    default. *)
Theorem remove_missing_keys (o : loaded) :
  let o' := __remove_missing o in
  let tfs := loaded_unique_tfs o' in
  let genes := loaded_gene_names o' in
  (∀ r, r ∈ motif_data o' →
     tfs !! get0 (name2idx tfs) r.1.1 = Some r.1.1 ∧
     genes !! get0 (name2idx genes) r.1.2 = Some r.1.2) ∧
  (∀ (pd : list (string * string * float)) r, ppi_data o' = Some pd → r ∈ pd →
     tfs !! get0 (name2idx tfs) r.1.1 = Some r.1.1 ∧
     tfs !! get0 (name2idx tfs) r.1.2 = Some r.1.2).
Proof.
  intros o' tfs genes.
  destruct (remove_missing_members o) as [Hmd Hpd]. split.
  - intros r Hr. destruct (Hmd r Hr).
    split; by apply get0_name2idx_lookup.
  - intros pd r Hpd' Hr. destruct (Hpd pd r Hpd' Hr).
    split; by apply get0_name2idx_lookup.
Qed.

(** ** The constructor *)

Lemma shaped_clean_correlation r c (x : matrix) :
  shaped r c x → shaped r c (clean_correlation x).
Proof.
  intros Hx. unfold clean_correlation. destruct (Np.any _); [|done].
  by apply shaped_map1, shaped_fill_diagonal.
Qed.

Lemma entry_fill_diagonal_gen (x : matrix) v i j :
  entry (Np.fill_diagonal x v) i j =
  (λ a, if decide (i = j) then v else a) <$> entry x i j.
Proof.
  destruct (entry x i j) as [a|] eqn:E.
  - by rewrite (entry_fill_diagonal _ _ _ _ _ E).
  - unfold entry in *. rewrite fill_diagonal_lookup.
    destruct (x !! i) as [row|]; simpl in *; [|done].
    apply lookup_ge_None. rewrite length_insert. by apply lookup_ge_None.
Qed.

Lemma symmetric_fill_diagonal (x : matrix) v :
  symmetric x → symmetric (Np.fill_diagonal x v).
Proof.
  intros Hx i j. rewrite !entry_fill_diagonal_gen, (Hx i j).
  destruct (entry x j i); simpl; [|done].
  by destruct (decide (i = j)), (decide (j = i)); try lia.
Qed.

Lemma symmetric_map1 f (x : matrix) : symmetric x → symmetric (Np.map1 f x).
Proof. intros Hx i j. unfold Np.map1. by rewrite !entry_fmap, Hx. Qed.

Lemma symmetric_clean_correlation (x : matrix) :
  symmetric x → symmetric (clean_correlation x).
Proof.
  intros Hx. unfold clean_correlation. destruct (Np.any _); [|done].
  by apply symmetric_map1, symmetric_fill_diagonal.
Qed.

Lemma shaped_create_ppi tfs d :
  shaped (length tfs) (length tfs) (create_ppi tfs d).
Proof.
  destruct d as [data|]; simpl.
  - by do 2 apply shaped_assign_flat; apply shaped_identity.
  - apply shaped_identity.
Qed.

Lemma shaped_create_motif tfs genes md :
  shaped (length tfs) (length genes) (create_motif tfs genes md).
Proof. apply shaped_assign_flat, shaped_zeros. Qed.

Section init.
Variable exp : float → float.

Lemma init_inv fuel corr tfs genes md ppi sm o' :
  __init__ exp fuel corr tfs genes md ppi sm = Some o' →
  ∃ s,
    while_loop exp fuel
      (nrows (_normalize_network (create_motif tfs genes md)))
      (ncols (_normalize_network (create_motif tfs genes md)))
      (initial (_normalize_network (clean_correlation corr))
               (_normalize_network (create_motif tfs genes md))
               (_normalize_network (create_ppi tfs ppi))) = Some s ∧
    o' = Self (if sm : bool then None
               else Some (Kept tfs genes (create_motif tfs genes md)))
              (length tfs) (correlation_matrix s) (motif_matrix s)
              (ppi_matrix s)
              (if sm then None
               else export (Kept tfs genes (create_motif tfs genes md))
                           (length tfs) (motif_matrix s))
              (motif_matrix s).
Proof.
  unfold __init__. intros H.
  destruct (panda_loop exp fuel _) as [[o1 net]|] eqn:Hrun; simpl in H; [|done].
  injection H as <-.
  apply panda_loop_inv in Hrun as (s & Hs & -> & ->). simpl in *.
  exists s. split; [done|]. by destruct sm.
Qed.

(** X19: when the constructor returns, the network it stores is the
    object's motif array, of shape regulators by targets, next to a square
    PPI array and a square coexpression array; with [save_memory] no edge
    list is built, and without it the labels and the unnormalized prior are
    kept and the edge list has one row per (regulator, target) pair. *)
Theorem init_result (fuel : nat) (correlation : matrix)
    (tfs genes : list string) (md : table) (ppi : option table)
    (save_memory : bool) (o' : self) (T G : nat) :
  length tfs = T → length genes = G → 0 < T → 0 < G →
  shaped G G correlation →
  __init__ exp fuel correlation tfs genes md ppi save_memory = Some o' →
  panda_network o' = self_motif_matrix o' ∧ num_tfs o' = T ∧
  shaped T G (panda_network o') ∧ shaped T T (self_ppi_matrix o') ∧
  shaped G G (self_correlation_matrix o') ∧
  (save_memory = true →
   self_kept o' = None ∧ export_panda_results o' = None) ∧
  (save_memory = false →
   self_kept o' = Some (Kept tfs genes (create_motif tfs genes md)) ∧
   ∃ es, export_panda_results o' = Some es ∧ length es = T * G).
Proof.
  intros HT HG HTpos HGpos Hc (s & Hs & ->)%init_inv.
  assert (shaped T G (create_motif tfs genes md)) as HU
    by (subst; apply shaped_create_motif).
  assert (shaped T T (create_ppi tfs ppi)) as HP
    by (subst; apply shaped_create_ppi).
  apply (while_loop_well_shaped exp T G HTpos HGpos) in Hs as (Hp' & Hm' & Hc').
  2:{ split_and!; simpl; apply shaped_normalize; try done.
      by apply shaped_clean_correlation. }
  simpl. split_and!; try done.
  - by intros ->.
  - intros ->. split; [done|]. rewrite HT.
    by apply (export_Some _ _ T G).
Qed.

(** X20: the PPI and coexpression arrays of the object the constructor
    returns are symmetric, when the coexpression array read in is symmetric
    (as [np.identity] is) or its column standardization after cleaning has
    no NaN, and the PPI table gives one weight to each unordered pair (or
    is absent) or the column standardization of the PPI array has no
    NaN. *)
Theorem init_keeps_symmetry (fuel G : nat) (correlation : matrix)
    (tfs genes : list string) (md : table) (ppi : option table)
    (save_memory : bool) (o' : self) :
  shaped G G correlation →
  symmetric correlation ∨
    Np.any (Np.isnan (norm_col (clean_correlation correlation))) = false →
  match ppi with
  | Some data => consistent (triples (name2idx tfs) (name2idx tfs) data)
  | None => True
  end ∨ Np.any (Np.isnan (norm_col (create_ppi tfs ppi))) = false →
  __init__ exp fuel correlation tfs genes md ppi save_memory = Some o' →
  symmetric (self_ppi_matrix o') ∧ symmetric (self_correlation_matrix o').
Proof.
  intros Hc Hsym Hppi (s & Hs & ->)%init_inv. simpl.
  apply (while_loop_symmetric exp) in Hs; [done|..]; simpl.
  - apply (symmetric_normalize_either (length tfs)); [apply shaped_create_ppi|].
    destruct Hppi as [Hppi|Hppi]; [left|by right].
    destruct ppi as [data|]; simpl.
    + by apply create_ppi_symmetric_aux.
    + apply symmetric_identity.
  - apply (symmetric_normalize_either G).
    + by apply shaped_clean_correlation.
    + destruct Hsym as [Hsym|Hsym]; [left|by right].
      by apply symmetric_clean_correlation.
Qed.

(** C7, as the code has it: without [save_memory], for [T] regulators and
    [G] targets the edge list of the object the constructor returns has
    [T * G] rows; row [j * T + i] holds regulator [i], target [j], as prior
    weight the entry (i, j) of the unnormalized motif array (the array built
    from the motif table, before normalization) and as inferred weight the
    entry (i, j) of the final motif array, which is the network returned;
    distinct labels give distinct (regulator, target) pairs. *)
Theorem init_export (fuel : nat) (correlation : matrix)
    (tfs genes : list string) (md : table) (ppi : option table)
    (o' : self) (T G : nat) :
  length tfs = T → length genes = G → 0 < T → 0 < G →
  shaped G G correlation →
  __init__ exp fuel correlation tfs genes md ppi false = Some o' →
  ∃ es, export_panda_results o' = Some es ∧ length es = T * G ∧
    (∀ i j t g, tfs !! i = Some t → genes !! j = Some g →
       ∃ u w, entry (create_motif tfs genes md) i j = Some u ∧
              entry (self_motif_matrix o') i j = Some w ∧
              es !! (j * T + i) = Some (Edge t g u w)) ∧
    (NoDup tfs → NoDup genes → NoDup ((λ e, (tf e, gene e)) <$> es)) ∧
    panda_network o' = self_motif_matrix o'.
Proof.
  intros HT HG HTpos HGpos Hc (s & Hs & ->)%init_inv.
  assert (shaped T G (create_motif tfs genes md)) as HU
    by (subst; apply shaped_create_motif).
  assert (shaped T T (create_ppi tfs ppi)) as HP
    by (subst; apply shaped_create_ppi).
  apply (while_loop_well_shaped exp T G HTpos HGpos) in Hs as (Hp' & Hm' & Hc').
  2:{ split_and!; simpl; apply shaped_normalize; try done.
      by apply shaped_clean_correlation. }
  simpl. rewrite HT.
  set (k := Kept tfs genes (create_motif tfs genes md)).
  destruct (export_Some k (motif_matrix s) T G HT HG HTpos HU Hm')
    as (es & Hes & Hlen).
  exists es. split_and!; [done..| | |done].
  - intros i j t g Ht Hg.
    apply lookup_lt_Some in Ht as Hi. apply lookup_lt_Some in Hg as Hj.
    rewrite HT in Hi. rewrite HG in Hj.
    destruct (entry_lt _ _ _ _ _ HU Hi Hj) as [u Hu].
    destruct (entry_lt _ _ _ _ _ Hm' Hi Hj) as [w Hw].
    exists u, w. split_and!; [done..|].
    by apply (export_lookup k (motif_matrix s) T G).
  - by apply (export_labels_NoDup k (motif_matrix s) T G).
Qed.

(** C8, as the code has it.  The PPI array is symmetric as constructed when
    the rows of the table for one unordered pair carry one weight (or
    without a table); [_normalize_network] maps a square array to a
    symmetric one when the array is symmetric or its column standardization
    has no NaN; the one-argument [t_function] is symmetric, [update_diagonal]
    and the damped update keep symmetry, so a pass of the loop, and a
    finished run, keep the PPI and coexpression arrays symmetric. *)
Theorem symmetry_is_kept :
  (∀ tfs ppi,
     match ppi with
     | Some data => consistent (triples (name2idx tfs) (name2idx tfs) data)
     | None => True
     end → symmetric (create_ppi tfs ppi)) ∧
  (∀ r x, shaped r r x →
     symmetric x ∨ Np.any (Np.isnan (norm_col x)) = false →
     symmetric (_normalize_network x)) ∧
  (∀ x, symmetric (t_function x None)) ∧
  (∀ x num a st, symmetric x → symmetric (update_diagonal exp x num a st)) ∧
  (∀ x w, symmetric x → symmetric w → symmetric (damped x w)) ∧
  (∀ nt ng s, symmetric (ppi_matrix s) → symmetric (correlation_matrix s) →
     symmetric (ppi_matrix (iteration exp nt ng s)) ∧
     symmetric (correlation_matrix (iteration exp nt ng s))) ∧
  (∀ fuel nt ng s s',
     symmetric (ppi_matrix s) → symmetric (correlation_matrix s) →
     while_loop exp fuel nt ng s = Some s' →
     symmetric (ppi_matrix s') ∧ symmetric (correlation_matrix s')).
Proof.
  split_and!.
  - intros tfs [data|] H; simpl.
    + by apply create_ppi_symmetric_aux.
    + apply symmetric_identity.
  - apply symmetric_normalize_either.
  - apply symmetric_t_function.
  - intros x num a st. apply symmetric_update_diagonal.
  - apply symmetric_damped.
  - intros nt ng s. apply iteration_symmetric.
  - intros fuel nt ng s s'. apply while_loop_symmetric.
Qed.

End init.

Lemma init_result_witness :
  let o' := ex_init_self in
  let md : table :=
    [("A", "g1", 1%float); ("A", "g2", 1%float); ("B", "g1", 1%float)] in
  panda_network o' = self_motif_matrix o' ∧ num_tfs o' = 2 ∧
  shaped 2 2 (panda_network o') ∧ shaped 2 2 (self_ppi_matrix o') ∧
  shaped 2 2 (self_correlation_matrix o') ∧
  (false = true →
   self_kept o' = None ∧ export_panda_results o' = None) ∧
  (false = false →
   self_kept o' = Some (Kept ["A"; "B"] ["g1"; "g2"]
                          (create_motif ["A"; "B"] ["g1"; "g2"] md)) ∧
   ∃ es, export_panda_results o' = Some es ∧ length es = 2 * 2).
Proof.
  intros o' md.
  apply (init_result exp_series 1 (Np.identity 2) ["A"; "B"] ["g1"; "g2"] md
           None false o' 2 2); try lia.
  - reflexivity.
  - reflexivity.
  - apply shaped_identity.
  - vm_compute. reflexivity.
Defined.

Lemma ex_ppi_data_consistent :
  consistent (triples (name2idx ["A"; "B"; "C"]) (name2idx ["A"; "B"; "C"])
                      ex_ppi_data).
Proof.
  change (triples _ _ ex_ppi_data)
    with [(0, 1, 0.5%float); (1, 2, 0.25%float)].
  intros u v Hu Hv Hcell.
  apply list_elem_of_In in Hu, Hv. simpl in Hu, Hv.
  destruct Hu as [<-|[<-|[]]], Hv as [<-|[<-|[]]];
    try reflexivity; exfalso; destruct Hcell as [Hcell|Hcell]; discriminate Hcell.
Qed.

Lemma init_keeps_symmetry_witness :
  (symmetric (self_ppi_matrix ex_run_self) ∧
   symmetric (self_correlation_matrix ex_run_self)) ∧
  (symmetric (self_ppi_matrix ex_run_corr_self) ∧
   symmetric (self_correlation_matrix ex_run_corr_self)).
Proof.
  split.
  - apply (init_keeps_symmetry exp_series 60 4 (Np.identity 4) ["A"; "B"; "C"]
             ["g1"; "g2"; "g3"; "g4"] ex_motif_data (Some ex_ppi_data) false
             ex_run_self).
    + apply shaped_identity.
    + left. apply symmetric_identity.
    + left. exact ex_ppi_data_consistent.
    + vm_compute. reflexivity.
  - apply (init_keeps_symmetry exp_series 60 4 ex_corr ["A"; "B"; "C"]
             ["g1"; "g2"; "g3"; "g4"] ex_motif_data (Some ex_ppi_data) false
             ex_run_corr_self).
    + split; [reflexivity|]. repeat constructor.
    + right. vm_compute. reflexivity.
    + left. exact ex_ppi_data_consistent.
    + vm_compute. reflexivity.
Defined.

Lemma init_export_witness :
  ∃ es, export_panda_results ex_run_self = Some es ∧ length es = 3 * 4 ∧
    (∀ i j t g, ["A"; "B"; "C"] !! i = Some t →
       ["g1"; "g2"; "g3"; "g4"] !! j = Some g →
       ∃ u w, entry (create_motif ["A"; "B"; "C"] ["g1"; "g2"; "g3"; "g4"]
                        ex_motif_data) i j = Some u ∧
              entry (self_motif_matrix ex_run_self) i j = Some w ∧
              es !! (j * 3 + i) = Some (Edge t g u w)) ∧
    (NoDup ["A"; "B"; "C"] → NoDup ["g1"; "g2"; "g3"; "g4"] →
     NoDup ((λ e, (tf e, gene e)) <$> es)) ∧
    panda_network ex_run_self = self_motif_matrix ex_run_self.
Proof.
  apply (init_export exp_series 60 (Np.identity 4) ["A"; "B"; "C"]
           ["g1"; "g2"; "g3"; "g4"] ex_motif_data (Some ex_ppi_data)
           ex_run_self 3 4); try lia.
  - reflexivity.
  - reflexivity.
  - apply shaped_identity.
  - vm_compute. reflexivity.
Defined.

(** The claim C7 takes the prior weight from the normalized motif array.
    In the run above the first row of the edge list, regulator A and target
    g1, has prior weight 1, the weight of the motif table, while the
    normalized motif array has another value there. *)
Lemma export_prior_is_not_normalized :
  ¬ (∀ (fuel : nat) (correlation : matrix) (tfs genes : list string)
       (md : list (string * string * float))
       (ppi : option (list (string * string * float)))
       (o' : self) (es : list edge) (i j : nat) (e : edge),
       __init__ exp_series fuel correlation tfs genes md ppi false = Some o' →
       export_panda_results o' = Some es →
       i < length tfs → j < length genes →
       es !! (j * length tfs + i) = Some e →
       Some (motif e) =
       entry (_normalize_network (create_motif tfs genes md)) i j).
Proof.
  intros H.
  specialize (H 60 (Np.identity 4) ["A"; "B"; "C"] ["g1"; "g2"; "g3"; "g4"]
                ex_motif_data (Some ex_ppi_data) ex_run_self
                (default [] (export_panda_results ex_run_self)) 0 0
                (default (Edge "" "" 0 0)
                   (default [] (export_panda_results ex_run_self) !! 0))).
  specialize (H ltac:(vm_compute; reflexivity) ltac:(vm_compute; reflexivity)
                ltac:(simpl; lia) ltac:(simpl; lia)
                ltac:(vm_compute; reflexivity)).
  vm_compute in H. by apply IEEE.Some_float_neq in H.
Qed.

Lemma symmetry_is_kept_witness :
  let ppi := create_ppi ["A"; "B"; "C"] (Some ex_ppi_data) in
  symmetric ppi ∧ symmetric (_normalize_network ppi) ∧
  symmetric (_normalize_network (clean_correlation ex_corr)) ∧
  symmetric (ppi_matrix
    (iteration exp_series 3 4
       (initial (_normalize_network (clean_correlation ex_corr))
          (_normalize_network
             (create_motif ["A"; "B"; "C"] ["g1"; "g2"; "g3"; "g4"]
                ex_motif_data))
          (_normalize_network ppi)))).
Proof.
  intros ppi.
  destruct (symmetry_is_kept exp_series)
    as (Hppi & Hnorm & _ & _ & _ & Hpass & _).
  assert (symmetric ppi) as H1
    by (apply (Hppi _ (Some ex_ppi_data)), ex_ppi_data_consistent).
  assert (symmetric (_normalize_network ppi)) as H2.
  { apply (Hnorm 3); [apply shaped_create_ppi|by left]. }
  assert (symmetric (_normalize_network (clean_correlation ex_corr))) as H3.
  { apply (Hnorm 4).
    - split; [reflexivity|]. repeat constructor.
    - right. vm_compute. reflexivity. }
  split_and!; [done..|]. by apply Hpass.
Defined.

(** The claim C8 takes the arrays to be symmetric once constructed and
    normalized.  A PPI table that gives the two orders of one pair two
    weights makes an array that is not symmetric, and with two regulators
    its normalization is not symmetric either. *)
Lemma two_weights_for_a_pair_break_symmetry :
  ¬ (∀ (tfs : list string) (data : list (string * string * float)),
       symmetric (create_ppi tfs (Some data))) ∧
  ¬ (∀ (tfs : list string) (data : list (string * string * float)),
       symmetric (_normalize_network (create_ppi tfs (Some data)))).
Proof.
  split; intros H;
    specialize (H ["A"; "B"] [("A", "B", 1%float); ("B", "A", 2%float)] 0 1);
    vm_compute in H; by apply IEEE.Some_float_neq in H.
Qed.

(** ** Signs and finiteness of the results of the IEEE operations *)

Module Rounding.
Import SF.

Lemma signed_not_nan s x : signed s x → not_nan x.
Proof. by destruct x. Qed.

Lemma shr_1_nonneg mrs : (0 ≤ shr_m mrs)%Z → (0 ≤ shr_m (shr_1 mrs))%Z.
Proof. destruct mrs as [[|[p|p|]|[p|p|]] r s]; simpl; lia. Qed.

Lemma iter_pos_inv {A} (P : A → Prop) (f : A → A) (p : positive) (x : A) :
  (∀ y, P y → P (f y)) → P x → P (SpecFloat.iter_pos f p x).
Proof.
  intros Hf. revert x. induction p as [p IH|p IH|]; intros x Hx; simpl; auto.
Qed.

Lemma shr_nonneg mrs e n :
  (0 ≤ shr_m mrs)%Z → (0 ≤ shr_m (shr mrs e n).1)%Z.
Proof.
  intros H. destruct n as [|p|p]; simpl; try done.
  by apply (iter_pos_inv (λ r, (0 ≤ shr_m r)%Z)); [apply shr_1_nonneg|].
Qed.

Lemma shr_fexp_nonneg m e l :
  (0 ≤ m)%Z → (0 ≤ shr_m (shr_fexp prec emax m e l).1)%Z.
Proof.
  intros H. unfold shr_fexp. apply shr_nonneg.
  by destruct l as [|[]].
Qed.

Lemma round_nearest_even_nonneg m l :
  (0 ≤ m)%Z → (0 ≤ round_nearest_even m l)%Z.
Proof.
  intros H. destruct l as [|[]]; simpl; try lia. destruct (Z.even m); lia.
Qed.

Lemma binary_round_aux_signed s m e l :
  (0 ≤ m)%Z → signed s (binary_round_aux prec emax s m e l).
Proof.
  intros H. unfold binary_round_aux.
  pose proof (shr_fexp_nonneg m e l H) as H1.
  destruct (shr_fexp prec emax m e l) as [mrs' e'] eqn:E1. simpl in H1.
  pose proof (shr_fexp_nonneg _ e' loc_Exact
                (round_nearest_even_nonneg _ (loc_of_shr_record mrs') H1)) as H2.
  destruct (shr_fexp prec emax (round_nearest_even _ _) e' loc_Exact)
    as [mrs'' e''] eqn:E2. simpl in H2.
  destruct (shr_m mrs'') as [|p|p]; simpl; [done| |lia].
  by destruct (e'' <=? emax - prec)%Z.
Qed.

Lemma binary_round_signed s m e : signed s (binary_round prec emax s m e).
Proof.
  unfold binary_round. destruct (shl_align _ _ _) as [mz ez].
  by apply binary_round_aux_signed.
Qed.

Lemma binary_normalize_not_nan m e sz :
  not_nan (binary_normalize prec emax m e sz).
Proof.
  destruct m as [|p|p]; simpl; [done|..];
    eapply signed_not_nan, binary_round_signed.
Qed.

Lemma binary_normalize_pos p e sz :
  signed false (binary_normalize prec emax (Zpos p) e sz).
Proof. simpl. apply binary_round_signed. Qed.

(** Addition and subtraction *)

Lemma SFadd_finite_r x y :
  not_nan x → finite y → not_nan (SF64add x y).
Proof.
  unfold SF64add, not_nan.
  destruct x as [[]|[]| |sx mx ex], y as [[]|[]| |sy my ey]; simpl; try done.
  intros _ _. apply binary_normalize_not_nan.
Qed.

Lemma SFsub_finite_l x y :
  finite x → not_nan y → not_nan (SF64sub x y).
Proof.
  unfold SF64sub, not_nan.
  destruct x as [[]|[]| |sx mx ex], y as [[]|[]| |sy my ey]; simpl; try done.
  intros _ _. apply binary_normalize_not_nan.
Qed.

Lemma SFadd_signed x y :
  signed false x → signed false y → signed false (SF64add x y).
Proof.
  unfold SF64add.
  destruct x as [sx|sx| |sx mx ex], y as [sy|sy| |sy my ey]; simpl; try done;
    intros -> ->; try done.
  destruct (shl_align mx ex _) as [a ?], (shl_align my ey _) as [b ?]. simpl.
  apply binary_round_signed.
Qed.

(** Multiplication *)

Lemma SFmul_square x : not_nan x → signed false (SF64mul x x).
Proof.
  unfold SF64mul, not_nan.
  destruct x as [[]|[]| |s m e]; simpl; try done. intros _.
  replace (xorb s s) with false by (by destruct s).
  by apply binary_round_aux_signed.
Qed.

Lemma SFmul_signed_finite_pos x y :
  signed false x → finite_pos y → signed false (SF64mul x y).
Proof.
  unfold SF64mul.
  destruct x as [sx|sx| |sx mx ex], y as [sy|sy| |[] my ey]; simpl; try done;
    intros ->; try done.
  intros _. by apply binary_round_aux_signed.
Qed.

(** Division *)

Lemma SFdiv_core_nonneg m1 e1 m2 e2 :
  (0 ≤ (SFdiv_core_binary prec emax (Zpos m1) e1 (Zpos m2) e2).1.1)%Z.
Proof.
  unfold SFdiv_core_binary.
  set (s := (e1 - e2 - _)%Z).
  set (m' := match s with Zpos _ => _ | Z0 => _ | Zneg _ => _ end).
  assert (0 ≤ m')%Z as Hm'.
  { unfold m'. destruct s; try lia. apply Z.shiftl_nonneg. lia. }
  pose proof (Z.div_pos m' (Zpos m2) Hm' ltac:(lia)) as Hq.
  unfold Z.div in Hq. destruct (Z.div_eucl m' (Zpos m2)) as [q r]. done.
Qed.

Lemma SFdiv_signed_finite_pos x y :
  signed false x → finite_pos y → signed false (SF64div x y).
Proof.
  unfold SF64div.
  destruct x as [sx|sx| |sx mx ex], y as [sy|sy| |[] my ey]; simpl; try done;
    intros ->; try done.
  intros _. unfold SFdiv.
  pose proof (SFdiv_core_nonneg mx ex my ey) as H.
  destruct (SFdiv_core_binary prec emax (Zpos mx) ex (Zpos my) ey)
    as [[mz ez] lz]. simpl in H.
  by apply binary_round_aux_signed.
Qed.

Lemma SFdiv_not_nan_finite_pos x y :
  not_nan x → finite_pos y → not_nan (SF64div x y).
Proof.
  unfold SF64div, not_nan.
  destruct x as [sx|sx| |sx mx ex], y as [sy|sy| |[] my ey]; simpl; try done.
  intros _ _.
  pose proof (SFdiv_core_nonneg mx ex my ey) as H.
  destruct (SFdiv_core_binary prec emax (Zpos mx) ex (Zpos my) ey)
    as [[mz ez] lz]. simpl in H.
  by eapply signed_not_nan, binary_round_aux_signed.
Qed.

(** Square root *)

Lemma SFsqrt_signed x : signed false x → signed false (SF64sqrt x).
Proof.
  unfold SF64sqrt.
  destruct x as [sx|sx| |sx mx ex]; simpl; try done; intros ->; try done.
  unfold SFsqrt_core_binary.
  set (s := (ex - _)%Z).
  set (m' := match s with Zpos _ => _ | Z0 => _ | Zneg _ => _ end).
  pose proof (Z.sqrtrem_spec m') as Hs.
  pose proof (Z.sqrtrem_sqrt m') as Hq. pose proof (Z.sqrt_nonneg m') as Hnn.
  destruct (Z.sqrtrem m') as [q r]. simpl in Hq. subst q.
  by apply binary_round_aux_signed.
Qed.

Local Open Scope Z_scope.

Lemma digits2_pos_bounds (p : positive) :
  2 ^ (Zpos (digits2_pos p) - 1) ≤ Zpos p < 2 ^ Zpos (digits2_pos p).
Proof.
  induction p as [p IH|p IH|]; simpl digits2_pos.
  - rewrite Pos2Z.inj_succ.
    replace (Z.succ (Zpos (digits2_pos p)) - 1) with (Zpos (digits2_pos p)) by lia.
    rewrite Z.pow_succ_r by lia.
    replace (2 ^ Zpos (digits2_pos p)) with (2 * 2 ^ (Zpos (digits2_pos p) - 1)) in *
      by (rewrite <- Z.pow_succ_r by lia; f_equal; lia).
    lia.
  - rewrite Pos2Z.inj_succ.
    replace (Z.succ (Zpos (digits2_pos p)) - 1) with (Zpos (digits2_pos p)) by lia.
    rewrite Z.pow_succ_r by lia.
    replace (2 ^ Zpos (digits2_pos p)) with (2 * 2 ^ (Zpos (digits2_pos p) - 1)) in *
      by (rewrite <- Z.pow_succ_r by lia; f_equal; lia).
    lia.
  - simpl. lia.
Qed.

Lemma Zdigits2_bounds (m : Z) :
  0 < m → 1 ≤ Zdigits2 m ∧ 2 ^ (Zdigits2 m - 1) ≤ m < 2 ^ Zdigits2 m.
Proof.
  destruct m as [|p|p]; try lia. intros _. simpl. split; [lia|].
  apply digits2_pos_bounds.
Qed.

Lemma Zdigits2_le (m k : Z) : 0 < m → m < 2 ^ k → Zdigits2 m ≤ k.
Proof.
  intros Hm Hk. destruct (Zdigits2_bounds m Hm) as (H1 & H2 & _).
  destruct (decide (Zdigits2 m ≤ k)) as [|Hn]; [done|].
  assert (2 ^ k ≤ 2 ^ (Zdigits2 m - 1)); [|lia].
  destruct (decide (0 ≤ k)).
  - apply Z.pow_le_mono_r; lia.
  - rewrite (Z.pow_neg_r 2 k) by lia. apply Z.pow_nonneg. lia.
Qed.

Lemma shr_1_div2 mrs : 0 ≤ shr_m mrs → shr_m (shr_1 mrs) = shr_m mrs / 2.
Proof.
  destruct mrs as [[|[p|p|]|p] r s]; cbn [shr_1 shr_m]; try lia; intros _.
  - done.
  - apply (Z.div_unique _ _ _ 1); lia.
  - apply (Z.div_unique _ _ _ 0); lia.
  - done.
Qed.

Lemma iter_shr_1 (p : positive) mrs :
  0 ≤ shr_m mrs →
  shr_m (SpecFloat.iter_pos shr_1 p mrs) = shr_m mrs / 2 ^ Zpos p.
Proof.
  revert mrs. induction p as [p IH|p IH|]; intros mrs Hm; simpl SpecFloat.iter_pos.
  - pose proof (shr_1_nonneg mrs Hm) as H1.
    assert (0 ≤ shr_m (SpecFloat.iter_pos shr_1 p (shr_1 mrs))) as H2
      by (by apply (iter_pos_inv (λ r, 0 ≤ shr_m r)); [apply shr_1_nonneg|]).
    rewrite IH, IH, shr_1_div2 by done.
    rewrite !Z.div_div by (try apply Z.pow_pos_nonneg; lia).
    f_equal. rewrite (Pos2Z.inj_xI p).
    replace (2 * Zpos p + 1) with (1 + Zpos p + Zpos p) by lia.
    rewrite !Z.pow_add_r by lia. change (2 ^ 1) with 2. ring.
  - assert (0 ≤ shr_m (SpecFloat.iter_pos shr_1 p mrs)) as H2
      by (by apply (iter_pos_inv (λ r, 0 ≤ shr_m r)); [apply shr_1_nonneg|]).
    rewrite IH, IH by done.
    rewrite !Z.div_div by (try apply Z.pow_pos_nonneg; lia).
    f_equal. rewrite (Pos2Z.inj_xO p).
    replace (2 * Zpos p) with (Zpos p + Zpos p) by lia.
    by rewrite Z.pow_add_r by lia.
  - rewrite shr_1_div2 by done. done.
Qed.

(** One rounding shift on a mantissa in the normal range: the mantissa
    stays positive, is not larger, and the exponent grows by at most the
    number of digits. *)
Lemma shr_fexp_pos m e l :
  0 < m → -1000 ≤ e →
  let r := shr_fexp prec emax m e l in
  0 < shr_m r.1 ≤ m ∧ e ≤ r.2 ≤ e + Zdigits2 m.
Proof.
  intros Hm He. destruct (Zdigits2_bounds m Hm) as (Hd & Hlo & Hhi).
  unfold shr_fexp, fexp, SpecFloat.emin, prec, emax.
  rewrite Z.max_l by lia.
  replace (Zdigits2 m + e - 53 - e) with (Zdigits2 m - 53) by lia.
  assert (shr_m (shr_record_of_loc m l) = m) as Hrec by (by destruct l as [|[]]).
  unfold shr. destruct (Zdigits2 m - 53) as [|p|p] eqn:En; simpl; rewrite ?Hrec;
    try lia.
  rewrite iter_shr_1 by lia. rewrite Hrec. split; [|lia]. split.
  - apply Z.div_str_pos. split; [apply Z.pow_pos_nonneg; lia|].
    etrans; [|apply Hlo]. apply Z.pow_le_mono_r; lia.
  - apply Z.div_le_upper_bound; [apply Z.pow_pos_nonneg; lia|].
    assert (1 ≤ 2 ^ Zpos p) by (apply (Z.pow_le_mono_r 2 0); lia). nia.
Qed.

Lemma binary_round_aux_finite s m e l :
  0 < m → m < 2 ^ 200 → -1000 ≤ e ≤ 300 →
  ∃ m' e', binary_round_aux prec emax s m e l = S754_finite s m' e'.
Proof.
  intros Hm Hb He. unfold binary_round_aux.
  pose proof (shr_fexp_pos m e l Hm ltac:(lia)) as H1.
  pose proof (Zdigits2_le m 200 Hm Hb) as Hd1.
  destruct (shr_fexp prec emax m e l) as [mrs' e'] eqn:E1. simpl in H1.
  set (m1 := round_nearest_even (shr_m mrs') (loc_of_shr_record mrs')).
  assert (0 < m1 ≤ shr_m mrs' + 1) as Hm1.
  { unfold m1. destruct (loc_of_shr_record mrs') as [|[]]; simpl; try lia.
    destruct (Z.even _); lia. }
  pose proof (shr_fexp_pos m1 e' loc_Exact ltac:(lia) ltac:(lia)) as H2.
  assert (m1 < 2 ^ 201) as Hb1.
  { replace (2 ^ 201) with (2 * 2 ^ 200) by (rewrite <- Z.pow_succ_r; [done|lia]).
    lia. }
  pose proof (Zdigits2_le m1 201 ltac:(lia) Hb1) as Hd2.
  destruct (shr_fexp prec emax m1 e' loc_Exact) as [mrs'' e''] eqn:E2.
  simpl in H2. destruct (shr_m mrs'') as [|p|p] eqn:Ep; try lia.
  unfold emax, prec. rewrite (proj2 (Z.leb_le _ _)) by lia. eauto.
Qed.

Lemma Pos_iter_xO (p k : positive) :
  Zpos (Pos.iter xO p k) = Zpos p * 2 ^ Zpos k.
Proof.
  induction k as [|k IH] using Pos.peano_ind.
  - simpl. lia.
  - rewrite Pos.iter_succ, Pos2Z.inj_xO, IH, Pos2Z.inj_succ, Z.pow_succ_r by lia.
    lia.
Qed.

Lemma binary_normalize_int_finite (p : positive) :
  Zpos p < 2 ^ 63 →
  finite_pos (binary_normalize prec emax (Zpos p) 0 false).
Proof.
  intros Hp. simpl. unfold binary_round.
  destruct (digits2_pos_bounds p) as [Hlo Hhi].
  assert (Zpos (digits2_pos p) ≤ 63) as Hd
    by (apply (Zdigits2_le (Zpos p)); lia).
  unfold fexp, SpecFloat.emin, prec, emax. rewrite Z.max_l by lia.
  unfold shl_align.
  replace (Zpos (digits2_pos p) + 0 - 53 - 0) with (Zpos (digits2_pos p) - 53)
    by lia.
  destruct (Zpos (digits2_pos p) - 53) as [|k|k] eqn:Ek;
    cbv beta iota zeta.
  - assert (Zpos p < 2 ^ 200) as Hb
      by (eapply Z.lt_trans; [apply Hp|]; by apply Z.pow_lt_mono_r).
    destruct (binary_round_aux_finite false (Zpos p) 0 loc_Exact
                ltac:(lia) Hb ltac:(lia)) as (m' & e' & Heq).
    unfold prec, emax in Heq. by rewrite Heq.
  - assert (Zpos p < 2 ^ 200) as Hb
      by (eapply Z.lt_trans; [apply Hp|]; by apply Z.pow_lt_mono_r).
    destruct (binary_round_aux_finite false (Zpos p) 0 loc_Exact
                ltac:(lia) Hb ltac:(lia)) as (m' & e' & Heq).
    unfold prec, emax in Heq. by rewrite Heq.
  - assert (Zpos (Pos.iter xO p k) < 2 ^ 200) as Hb.
    { rewrite Pos_iter_xO.
      assert (Zpos k ≤ 52) by lia.
      assert (2 ^ Zpos k ≤ 2 ^ 52) by (apply Z.pow_le_mono_r; lia).
      replace (2 ^ 200) with (2 ^ 63 * 2 ^ 137) by (by rewrite <- Z.pow_add_r).
      assert (2 ^ 52 < 2 ^ 137) by (by apply Z.pow_lt_mono_r).
      assert (0 < 2 ^ Zpos k) by (apply Z.pow_pos_nonneg; lia).
      nia. }
    destruct (binary_round_aux_finite false (Zpos (Pos.iter xO p k))
                (Zpos (digits2_pos p) + 0 - 53) loc_Exact
                ltac:(lia) Hb ltac:(lia)) as (m' & e' & Heq).
    unfold prec, emax in Heq. by rewrite Heq.
Qed.

Local Close Scope Z_scope.

Lemma of_nat_finite_pos (n : nat) :
  0 < n → (Z.of_nat n < 2 ^ 63)%Z → finite_pos (Prim2SF (of_nat n)).
Proof.
  intros Hn Hb. unfold of_nat. rewrite of_uint63_spec, Uint63.of_Z_spec.
  rewrite Z.mod_small by (split; [lia|exact Hb]).
  destruct (Z.of_nat n) as [|p|p] eqn:E; try lia.
  by apply binary_normalize_int_finite.
Qed.

Lemma Prim2SF_finite (a : float) :
  is_nan a = false → a ≠ infinity → a ≠ neg_infinity → finite (Prim2SF a).
Proof.
  intros Hn Hp Hm. destruct (Prim2SF a) as [s|[]| |s m e] eqn:E; try done.
  - apply Hm, Prim2SF_inj. by rewrite E.
  - apply Hp, Prim2SF_inj. by rewrite E.
  - apply IEEE.is_nan_Prim2SF in E. congruence.
Qed.

Lemma Prim2SF_finite_pos (e : float) :
  (0 <? e)%float = true → e ≠ infinity → finite_pos (Prim2SF e).
Proof.
  rewrite ltb_spec. change (Prim2SF 0) with (S754_zero false).
  destruct (Prim2SF e) as [[]|[]| |[] m ex] eqn:E; simpl; try done.
  intros _ H. apply H, Prim2SF_inj. by rewrite E.
Qed.

Lemma signed_false_float (d : float) :
  signed false (Prim2SF d) → is_nan d = false ∧ (d <? 0)%float = false.
Proof.
  intros H. split.
  - apply not_true_iff_false. rewrite IEEE.is_nan_Prim2SF. intros E.
    by rewrite E in H.
  - rewrite ltb_spec. change (Prim2SF 0) with (S754_zero false).
    by destruct (Prim2SF d) as [[]|[]| |[] m e].
Qed.

Lemma foldl_add_inv (P Q : spec_float → Prop) (v : fvec) (acc : float) :
  (∀ x y, P x → Q y → P (SF64add x y)) →
  P (Prim2SF acc) → Forall (λ a, Q (Prim2SF a)) v →
  P (Prim2SF (foldl PrimFloat.add acc v)).
Proof.
  intros HPQ. revert acc. induction v as [|a v IH]; intros acc Hacc Hv; simpl;
    [done|].
  inversion Hv; subst. apply IH; [|done]. rewrite add_spec. by apply HPQ.
Qed.

(** [np.nanstd] of values without infinities, one of which at least is
    not NaN, is a double of sign bit 0: never NaN and never negative. *)
Lemma nanstd_signed (v : fvec) :
  Forall (λ a, a ≠ infinity ∧ a ≠ neg_infinity) v →
  (∃ a, a ∈ v ∧ is_nan a = false) →
  (Z.of_nat (length v) < 2 ^ 63)%Z →
  signed false (Prim2SF (Np.nanstd v)).
Proof.
  intros Hfin (a0 & Ha0 & Hn0) Hlen. unfold Np.nanstd, Np.nanvar. cbv zeta.
  set (cnt := length (filter _ v)).
  assert (0 < cnt ≤ length v) as Hcnt.
  { split; [|apply length_filter].
    assert (a0 ∈ filter (λ a, is_nan a = false) v) as Hin
      by (by apply list_elem_of_filter).
    unfold cnt. destruct (filter _ v); [by apply elem_of_nil in Hin|simpl; lia]. }
  assert (finite_pos (Prim2SF (of_nat cnt))) as Hc
    by (apply of_nat_finite_pos; lia).
  destruct (decide (cnt = 0)) as [|_]; [lia|].
  rewrite sqrt_spec. apply SFsqrt_signed.
  rewrite div_spec. apply SFdiv_signed_finite_pos; [|done].
  set (avg := (Np.sum _ / of_nat cnt)%float).
  assert (not_nan (Prim2SF avg)) as Havg.
  { unfold avg. rewrite div_spec. apply SFdiv_not_nan_finite_pos; [|done].
    apply (foldl_add_inv not_nan finite); [by intros; apply SFadd_finite_r|done|].
    rewrite Forall_fmap. eapply Forall_impl; [exact Hfin|].
    intros a [Hp Hm]. simpl. destruct (is_nan a) eqn:En; [done|].
    by apply Prim2SF_finite. }
  apply (foldl_add_inv (signed false) (signed false));
    [apply SFadd_signed|done|].
  rewrite Forall_fmap, zip_with_fmap_r, zip_with_diag, Forall_fmap.
  eapply Forall_impl; [exact Hfin|].
  intros a [Hp Hm]. simpl. destruct (is_nan a) eqn:En; [done|].
  rewrite mul_spec. apply SFmul_square. rewrite sub_spec.
  apply SFsub_finite_l; [by apply Prim2SF_finite|done].
Qed.

End Rounding.

Lemma update_diagonal_row_no_nan (exp : float → float) (n : nat) (x : matrix)
    (num : nat) (alpha : float) (step i : nat) (row : fvec) :
  shaped n n x → x !! i = Some row →
  (Z.of_nat n < 2 ^ 63)%Z → 0 < num → (Z.of_nat num < 2 ^ 63)%Z →
  (∀ j a, j ≠ i → row !! j = Some a → a ≠ infinity ∧ a ≠ neg_infinity) →
  (∃ j a, j ≠ i ∧ row !! j = Some a ∧ is_nan a = false) →
  (0 <? exp (2 * alpha * of_nat step))%float = true →
  exp (2 * alpha * of_nat step)%float ≠ infinity →
  ∃ d, entry (update_diagonal exp x num alpha step) i i = Some d ∧
       is_nan d = false ∧ (d <? 0)%float = false.
Proof.
  intros Hs Hrow Hn Hnum Hnum' Hfin (j0 & a0 & Hj0 & Ha0 & Hn0) He1 He2.
  destruct (shaped_lookup _ _ _ _ _ Hs Hrow) as [Hi Hlen].
  eexists. split.
  { unfold entry. rewrite (update_diagonal_lookup _ _ _ _ _ _ _ Hrow). simpl.
    apply list_lookup_insert_eq. lia. }
  apply Rounding.signed_false_float. rewrite !mul_spec.
  apply Rounding.SFmul_signed_finite_pos;
    [|by apply Rounding.Prim2SF_finite_pos].
  apply Rounding.SFmul_signed_finite_pos;
    [|by apply Rounding.of_nat_finite_pos].
  apply Rounding.nanstd_signed.
  - apply Forall_lookup. intros j a Hja.
    destruct (decide (j = i)) as [->|Hne].
    + rewrite list_lookup_insert_eq in Hja by lia.
      assert (a = nan) as -> by congruence.
      split; by apply IEEE.float_neq.
    + rewrite list_lookup_insert_ne in Hja by done. by apply (Hfin j).
  - exists a0. split; [|done]. apply (list_elem_of_lookup_2 _ j0).
    by rewrite list_lookup_insert_ne.
  - rewrite length_insert. lia.
Qed.

Lemma bounded_not_infinite (a : float) :
  is_nan a = true ∨ (abs a <=? 0x1p900)%float = true →
  a ≠ infinity ∧ a ≠ neg_infinity.
Proof.
  intros H. split; intros ->; destruct H as [H|H]; vm_compute in H;
    discriminate H.
Qed.

(** C9, as the code has it: on a square array in which every row has, off
    the diagonal, an entry that is not NaN, and every entry off the diagonal
    is NaN or of magnitude at most 2^900 (so it is not infinite, and no sum
    of entries overflows, in whatever order it is taken), for a positive
    count [num] and a positive finite value of [exp(2 * alpha * step)],
    [update_diagonal] leaves no NaN on the diagonal: every diagonal entry is
    a number that is not negative. *)
Theorem update_diagonal_no_nan (exp : float → float) (n : nat) (x : matrix)
    (num : nat) (alpha : float) (step : nat) :
  shaped n n x →
  (Z.of_nat n < 2 ^ 63)%Z → 0 < num → (Z.of_nat num < 2 ^ 63)%Z →
  (∀ i j a, i ≠ j → entry x i j = Some a →
     is_nan a = true ∨ (abs a <=? 0x1p900)%float = true) →
  (∀ i, i < n → ∃ j a, j ≠ i ∧ entry x i j = Some a ∧ is_nan a = false) →
  (0 <? exp (2 * alpha * of_nat step))%float = true →
  exp (2 * alpha * of_nat step)%float ≠ infinity →
  ∀ i, i < n →
    ∃ d, entry (update_diagonal exp x num alpha step) i i = Some d ∧
         is_nan d = false ∧ (d <? 0)%float = false.
Proof.
  intros Hs Hn Hnum Hnum' Hb Hex He1 He2 i Hi.
  destruct (lookup_lt_is_Some_2 x i) as [row Hrow]; [by rewrite (proj1 Hs)|].
  apply (update_diagonal_row_no_nan exp n x num alpha step i row); try done.
  - intros j a Hj Ha. apply bounded_not_infinite, (Hb i j); [done|].
    unfold entry. by rewrite Hrow.
  - destruct (Hex i Hi) as (j & a & Hj & Ha & Hna). exists j, a.
    split_and!; [done| |done]. unfold entry in Ha. by rewrite Hrow in Ha.
Qed.

Lemma update_diagonal_no_nan_witness :
  let y := update_diagonal exp_series
             [[5; 1; -2]; [1; 7; nan]; [-2; 3; 9]]%float 3 alpha 4 in
  (∃ d, entry y 0 0 = Some d ∧ is_nan d = false ∧ (d <? 0)%float = false) ∧
  (∃ d, entry y 1 1 = Some d ∧ is_nan d = false ∧ (d <? 0)%float = false) ∧
  (∃ d, entry y 2 2 = Some d ∧ is_nan d = false ∧ (d <? 0)%float = false).
Proof.
  intros y.
  assert (∀ i, i < 3 →
            ∃ d, entry y i i = Some d ∧
                 is_nan d = false ∧ (d <? 0)%float = false) as H.
  { apply (update_diagonal_no_nan exp_series 3 _ 3 alpha 4).
    - split; [reflexivity|]. repeat constructor.
    - reflexivity.
    - lia.
    - reflexivity.
    - intros i j a Hij Ha.
      destruct i as [|[|[|i]]], j as [|[|[|j]]]; try lia; vm_compute in Ha;
        try discriminate Ha;
        match type of Ha with
        | Some ?v = Some _ => assert (a = v) as -> by congruence
        end;
        first [left; reflexivity | right; vm_compute; reflexivity].
    - intros [|[|[|i]]] Hi; [| | |lia].
      + exists 1, 1%float. split; [lia|]. split; reflexivity.
      + exists 0, 1%float. split; [lia|]. split; reflexivity.
      + exists 1, 3%float. split; [lia|]. split; reflexivity.
    - vm_compute. reflexivity.
    - apply IEEE.float_neq. vm_compute. reflexivity. }
  split_and!; apply H; lia.
Defined.

(** The claim C9 asks only that no row be all NaN.  A 1 by 1 array has no
    entry off the diagonal, so its diagonal entry becomes NaN; and with an
    infinite entry off the diagonal the deviation from the mean is
    [inf - inf], so the diagonal entry is NaN although every row has an
    entry off the diagonal that is not NaN. *)
Lemma update_diagonal_can_leave_nan :
  ¬ (∀ (exp : float → float) (n : nat) (x : matrix) (num step i : nat)
       (d : float),
       shaped n n x →
       (∀ row, row ∈ x → ∃ a, a ∈ row ∧ is_nan a = false) →
       entry (update_diagonal exp x num alpha step) i i = Some d →
       is_nan d = false) ∧
  ¬ (∀ (exp : float → float) (n : nat) (x : matrix) (num step i : nat)
       (d : float),
       shaped n n x →
       (∀ i, i < n → ∃ j a, j ≠ i ∧ entry x i j = Some a ∧ is_nan a = false) →
       entry (update_diagonal exp x num alpha step) i i = Some d →
       is_nan d = false).
Proof.
  split; intros H.
  - specialize (H exp_series 1 [[5%float]] 1 0 0 nan).
    assert (is_nan nan = false) as E; [|vm_compute in E; discriminate E].
    apply H.
    + split; [reflexivity|]. repeat constructor.
    + intros row Hin. apply list_elem_of_In in Hin. simpl in Hin.
      destruct Hin as [<-|[]]. exists 5%float.
      split; [apply list_elem_of_In; simpl; auto|reflexivity].
    + vm_compute. reflexivity.
  - specialize (H exp_series 2 [[0; infinity]; [infinity; 0]]%float 2 0 0 nan).
    assert (is_nan nan = false) as E; [|vm_compute in E; discriminate E].
    apply H.
    + split; [reflexivity|]. repeat constructor.
    + intros [|[|i]] Hi; [| |lia].
      * exists 1, infinity. split; [lia|]. split; reflexivity.
      * exists 0, infinity. split; [lia|]. split; reflexivity.
    + vm_compute. reflexivity.
Qed.
